(** * geocoder: the address hierarchy of [main.py]

    A shallow embedding of [GeoEntry], [GeoNode], [GeoGraph] and of the
    ingestion loop of [main.py], followed by the properties of the
    hierarchy construction.

    Modelling conventions.
    - A Python [str] is a [string]; a character is the code point below 256
      that it denotes.  [None] is [None]: a value that is [None] or a [str]
      is an [option string].
    - A [dict] is a [gmap]: keys are unique and two dicts with the same
      entries are equal.  The insertion order that a Python dict also keeps
      is not represented.
    - The hierarchy is a tree of [GeoNode] objects, each one owned by the
      [children] dict of its parent.  The tree is a value of the inductive
      type [GeoNode.t]; a reference to a node inside the tree ([cur_node],
      [parent_node]) is the path of dict keys leading to it from the root,
      and a mutation of the referenced node is a functional update at that
      path.
    - A call that can raise returns a [result] together with the state it
      leaves behind. *)

From Stdlib Require Import Ascii.
From stdpp Require Import gmap strings list fin_maps.
From stdpp Require Import sorting.

(** ** [str.strip] and truthiness *)

Module Str.

(** [str.isspace] on one character: TAB..CR, FS..US, space, NEL and NBSP are
    the white space characters below code point 256. *)
Definition isspace (c : ascii) : bool :=
  let n := N_of_ascii c in
  ((9 <=? n) && (n <=? 13) || (28 <=? n) && (n <=? 32) || (n =? 133) || (n =? 160))%N.

Fixpoint lstrip (s : string) : string :=
  match s with
  | EmptyString => EmptyString
  | String c s' => if isspace c then lstrip s' else s
  end.

Fixpoint rstrip (s : string) : string :=
  match s with
  | EmptyString => EmptyString
  | String c s' =>
      match rstrip s' with
      | EmptyString => if isspace c then EmptyString else String c EmptyString
      | r => String c r
      end
  end.

(** [s.strip()] with no argument: leading and trailing white space removed. *)
Definition strip (s : string) : string := rstrip (lstrip s).

(** The truth value of a string in a condition: non-empty. *)
Definition truthy (s : string) : bool :=
  match s with EmptyString => false | String _ _ => true end.

(** Every character of [s] is white space. *)
Fixpoint all_space (s : string) : bool :=
  match s with
  | EmptyString => true
  | String c s' => isspace c && all_space s'
  end.

Definition first_char (s : string) : option ascii :=
  match s with EmptyString => None | String c _ => Some c end.

Fixpoint last_char (s : string) : option ascii :=
  match s with
  | EmptyString => None
  | String c EmptyString => Some c
  | String _ s' => last_char s'
  end.

End Str.

(** ** class GeoEntry *)

Module GeoEntry.

Record t : Type := mk {
  region : option string;
  postcode : option string;
  city : option string;
  street : option string;
  number : option string;
  unit : option string
}.

Definition get_entry (target_dict : gmap string string) (target_entry : string)
  : option string :=
  match target_dict !! target_entry with
  | Some target_value =>
      let target_value := Str.strip target_value in
      if Str.truthy target_value then Some target_value else None
  | None => None
  end.

Definition from_properties (properties : gmap string string) : t :=
  let region := get_entry properties "region" in
  let postcode := get_entry properties "postcode" in
  let city := get_entry properties "city" in
  let street := get_entry properties "street" in
  let number := get_entry properties "number" in
  let unit := get_entry properties "unit" in
  mk region postcode city street number unit.

(** [x is not None] *)
Definition is_not_None {A} (x : option A) : bool :=
  match x with Some _ => true | None => false end.

Definition is_valid (self : t) : bool :=
  is_not_None (region self) && is_not_None (postcode self)
  && is_not_None (city self) && is_not_None (street self).

End GeoEntry.

(** ** class GeoNode *)

Module GeoNode.

Inductive NodeType : Type :=
  PLANET | COUNTRY | REGION | CITY | POSTCODE | STREET | NUMBER | UNIT.

(** [node_type.value] *)
Definition value (node_type : NodeType) : Z :=
  match node_type with
  | PLANET => 0 | COUNTRY => 1 | REGION => 2 | CITY => 3
  | POSTCODE => 4 | STREET => 5 | NUMBER => 6 | UNIT => 7
  end.

(** Iterating over the enum class yields its members in definition order. *)
Definition members : list NodeType :=
  [PLANET; COUNTRY; REGION; CITY; POSTCODE; STREET; NUMBER; UNIT].

#[global] Instance NodeType_eq_dec : EqDecision NodeType.
Proof. solve_decision. Defined.

(** A node: its label ([None] or a string), its type and the dict of its
    children, keyed by label.  Every node that the code builds is given a
    type, so that [node_type] is never the default [None]. *)
#[warnings="-register-all"]
Inductive t : Type := mk {
  label : option string;
  node_type : NodeType;
  children : gmap (option string) t
}.

(** [GeoNode(label, node_type)]: the constructor starts with no children. *)
Definition new (label : option string) (node_type : NodeType) : t :=
  mk label node_type ∅.

Definition set_children (n : t) (c : gmap (option string) t) : t :=
  mk (label n) (node_type n) c.

(** References into the tree.  A reference to a node is the list of keys
    leading to it from the root; [node_at] dereferences it and [update_at]
    applies a mutation to the node it designates. *)
Fixpoint node_at (p : list (option string)) (n : t) : option t :=
  match p with
  | [] => Some n
  | k :: p' =>
      match children n !! k with
      | Some c => node_at p' c
      | None => None
      end
  end.

Fixpoint update_at (p : list (option string)) (f : t → t) (n : t) : t :=
  match p with
  | [] => f n
  | k :: p' => set_children n (alter (update_at p' f) k (children n))
  end.

End GeoNode.

Export GeoNode(NodeType, PLANET, COUNTRY, REGION, CITY, POSTCODE, STREET, NUMBER, UNIT).

(** ** Exceptions *)

Inductive exn : Type :=
| ValueError       (* raised by [add_child] on an entry that is not valid *)
| KeyError         (* a subscript [d[k]] with [k] not in [d] *)
| AttributeError.  (* an attribute of [None] *)

(** [isinstance(e, Exception)]: the three are subclasses of [Exception]. *)
Definition is_Exception (e : exn) : bool :=
  match e with ValueError | KeyError | AttributeError => true end.

Inductive result : Type :=
| Returned
| Raised (e : exn).

(** ** class GeoGraph *)

Module GeoGraph.

Record t : Type := mk { root : GeoNode.t }.

Definition USA : string := "United States of America".

(** The static method [_add_child], on the parent node it is given: the pair
    of the parent after the call and of the child it returns. *)
Definition _add_child (parent_node : GeoNode.t) (child_label : option string)
    (child_type : NodeType) : GeoNode.t * GeoNode.t :=
  match GeoNode.children parent_node !! child_label with
  | None =>
      let child_node := GeoNode.new child_label child_type in
      (GeoNode.set_children parent_node
         (<[GeoNode.label child_node := child_node]> (GeoNode.children parent_node)),
       child_node)
  | Some child_node => (parent_node, child_node)
  end.

(** The variables of one call of [add_child]: the tree under [self.root],
    the reference [cur_node] ([None] before the first iteration), and two
    observers that the code does not have: the enum members the loop has
    visited so far and the number of calls of [_add_child]. *)
Record frame : Type := mkframe {
  self_root : GeoNode.t;
  cur_node : option (list (option string));
  visited : list NodeType;
  calls : nat
}.

Definition set_cur_node (f : frame) (p : list (option string)) : frame :=
  mkframe (self_root f) (Some p) (visited f) (calls f).

Definition visit (f : frame) (node_type : NodeType) : frame :=
  mkframe (self_root f) (cur_node f) (visited f ++ [node_type]) (calls f).

(** How one iteration ends: the loop goes on, the method returns, or an
    exception leaves it. *)
Inductive flow : Type :=
| Next (f : frame)
| Return (f : frame)
| Raise (e : exn) (f : frame).

(** [cur_node = self._add_child(parent_node=cur_node, child_label=..,
    child_type=..)]: the parent is mutated where it lives in the tree and
    the reference moves to the child, which is stored under [child_label]. *)
Definition call_add_child (f : frame) (child_label : option string)
    (child_type : NodeType) : flow :=
  match cur_node f with
  | None => Raise AttributeError (mkframe (self_root f) None (visited f) (S (calls f)))
  | Some p =>
      Next (mkframe
              (GeoNode.update_at p
                 (λ parent_node, (_add_child parent_node child_label child_type).1)
                 (self_root f))
              (Some (p ++ [child_label]))
              (visited f)
              (S (calls f)))
  end.

(** The body of the [for] loop: the [if]/[elif] chain on [node_type].  The
    locals [name] and [level] are assigned and never read. *)
Definition body (child_entry : GeoEntry.t) (node_type : NodeType) (f : frame) : flow :=
  match node_type with
  | PLANET => Next (set_cur_node f [])
  | COUNTRY =>
      match GeoNode.children (self_root f) !! Some USA with
      | Some _ => Next (set_cur_node f [Some USA])
      | None => Raise KeyError f
      end
  | REGION => call_add_child f (GeoEntry.region child_entry) REGION
  | CITY => call_add_child f (GeoEntry.city child_entry) CITY
  | POSTCODE => call_add_child f (GeoEntry.postcode child_entry) POSTCODE
  | STREET => call_add_child f (GeoEntry.street child_entry) STREET
  | NUMBER =>
      match GeoEntry.number child_entry with
      | None => Return f
      | Some _ => call_add_child f (GeoEntry.number child_entry) NUMBER
      end
  | UNIT =>
      match GeoEntry.unit child_entry with
      | None => Return f
      | Some _ => call_add_child f (GeoEntry.unit child_entry) UNIT
      end
  end.

(** [for node_type in GeoNode.NodeType: ...] over the members still to come. *)
Fixpoint for_node_type (todo : list NodeType) (child_entry : GeoEntry.t)
    (f : frame) : flow :=
  match todo with
  | [] => Next f
  | node_type :: todo' =>
      match body child_entry node_type (visit f node_type) with
      | Next f' => for_node_type todo' child_entry f'
      | stop => stop
      end
  end.

Definition enter (self : t) : frame := mkframe (root self) None [] 0.

(** One call of [add_child], with the frame it ends in. *)
Definition add_child_run (self : t) (child_entry : GeoEntry.t) : flow :=
  if negb (GeoEntry.is_valid child_entry) then Raise ValueError (enter self)
  else for_node_type GeoNode.members child_entry (enter self).

(** [self.add_child(child_entry)]: how the call ends and the graph after it.
    Falling off the end of the loop returns, like the two [return]
    statements. *)
Definition add_child (self : t) (child_entry : GeoEntry.t) : result * t :=
  match add_child_run self child_entry with
  | Next f | Return f => (Returned, mk (self_root f))
  | Raise e f => (Raised e, mk (self_root f))
  end.

End GeoGraph.

(** ** The script under [if __name__ == '__main__'] *)

Module Main.

(** The graph as the script sets it up: the root "Earth" with the country
    node stored under its label. *)
Definition country_node : GeoNode.t :=
  GeoNode.new (Some "United States of America") COUNTRY.

Definition g : GeoGraph.t :=
  let root := GeoNode.new (Some "Earth") PLANET in
  GeoGraph.mk (GeoNode.set_children root
                 (<[GeoNode.label country_node := country_node]> (GeoNode.children root))).

(** The variables of the script that the reading loop changes. *)
Record state : Type := mkstate {
  graph : GeoGraph.t;
  num_incomplete : Z;
  num_processed : Z;
  lines : Z
}.

Definition start (g : GeoGraph.t) : state := mkstate g 0 0 100.

(** How the reading loop ends: it runs to its end (or to its [break]), or an
    exception that no handler catches ends the script. *)
Inductive run : Type :=
| Finished (s : state)
| Uncaught (e : exn) (s : state).

(** The loop over the lines of the file.  A line is given by what the loop
    uses of it: [None] when the decoded object has no "properties" key, and
    the properties dict otherwise. *)
Fixpoint read_lines (file : list (option (gmap string string))) (s : state) : run :=
  match file with
  | [] => Finished s
  | entry :: file' =>
      if (lines s =? 0)%Z then Finished s
      else
        let s := mkstate (graph s) (num_incomplete s) (num_processed s) (lines s - 1) in
        match entry with
        | Some properties =>
            let geo_entry := GeoEntry.from_properties properties in
            let s := mkstate (graph s) (num_incomplete s) (num_processed s + 1) (lines s) in
            match GeoGraph.add_child (graph s) geo_entry with
            | (Returned, g') =>
                read_lines file' (mkstate g' (num_incomplete s) (num_processed s) (lines s))
            | (Raised e, g') =>
                let s := mkstate g' (num_incomplete s) (num_processed s) (lines s) in
                if is_Exception e
                then read_lines file'
                       (mkstate (graph s) (num_incomplete s + 1) (num_processed s) (lines s))
                else Uncaught e s
            end
        | None => read_lines file' s
        end
  end.

(** The breadth-first traversal that follows the reading loop.  A node in
    the queue is given with the reference that designates it, since two
    nodes with the same label and type are two nodes of [nx_graph] (a
    [GeoNode] has no [__eq__]).  [nx_graph] is the list of the edges in the
    order in which [add_edge] receives them.  [children.values()] is
    [map_to_list]: the order in which a dict lists its values is not
    represented, so that the order among the children of one node means
    nothing here. *)
Definition item : Type := list (option string) * GeoNode.t.

(** [item.children.values()], each child with its reference. *)
Definition children_of (it : item) : list item :=
  (λ kc, (it.1 ++ [kc.1], kc.2)) <$> map_to_list (GeoNode.children it.2).

(** [for child in children: nx_graph.add_edge(item, child); q.put(child)] *)
Definition for_child (it : item) (children : list item)
    (q : list item) (nx_graph : list (item * item)) : list item * list (item * item) :=
  foldl (λ st child, (st.1 ++ [child], st.2 ++ [(it, child)])) (q, nx_graph) children.

(** [while not q.empty(): item = q.get(); ...], for at most [fuel]
    iterations: [None] when the queue is not empty after that many. *)
Fixpoint while_queue (fuel : nat) (q : list item) (nx_graph : list (item * item))
  : option (list (item * item)) :=
  match q with
  | [] => Some nx_graph
  | it :: q =>
      match fuel with
      | 0 => None
      | S fuel =>
          let st := for_child it (children_of it) q nx_graph in
          while_queue fuel st.1 st.2
      end
  end.

(** [q.put(g.root)], an empty [nx_graph], and the loop. *)
Definition traverse (fuel : nat) (g : GeoGraph.t) : option (list (item * item)) :=
  while_queue fuel [([], GeoGraph.root g)] [].

End Main.

(** ** Sample data *)

Module Examples.

Definition entry_100 : GeoEntry.t :=
  GeoEntry.mk (Some "CA") (Some "92101") (Some "San Diego") (Some "Main St")
    (Some "100") None.

Definition entry_200 : GeoEntry.t :=
  GeoEntry.mk (Some "CA") (Some "92101") (Some "San Diego") (Some "Main St")
    (Some "200") None.

Definition entry_street_only : GeoEntry.t :=
  GeoEntry.mk (Some "CA") (Some "92101") (Some "San Diego") (Some "Main St")
    None None.

Definition entry_no_city : GeoEntry.t :=
  GeoEntry.mk (Some "CA") (Some "92101") None (Some "Main St") (Some "100") None.

(** The properties of one line of the input, with white space around some
    values and an empty unit. *)
Definition props_100 : gmap string string :=
  <["region" := " CA"]> (<["postcode" := "92101"]> (<["city" := "San Diego "]>
  (<["street" := "Main St"]> (<["number" := "100"]> (<["unit" := "  "]> ∅))))).

(** A graph whose root has no country node. *)
Definition bare : GeoGraph.t := GeoGraph.mk (GeoNode.new (Some "Earth") PLANET).

End Examples.

(** * Properties *)

(** ** Auxiliary definitions

    These definitions are not in the code: they describe what the code does
    and are related to it by the lemmas below. *)

(** The labels that a call of [add_child] passes to [_add_child], in order:
    the four required fields, then the number and the unit as far as they
    are there. *)
Definition labels (e : GeoEntry.t) : list (option string) :=
  [GeoEntry.region e; GeoEntry.city e; GeoEntry.postcode e; GeoEntry.street e]
  ++ match GeoEntry.number e with
     | None => []
     | Some _ =>
         GeoEntry.number e
         :: match GeoEntry.unit e with
            | None => []
            | Some _ => [GeoEntry.unit e]
            end
     end.

(** The node types below the country, in the order of the enum. *)
Definition lower_types : list NodeType := drop 2 GeoNode.members.

(** [add l ty] is the effect of [_add_child(parent, l, ty)] on the parent. *)
Definition add (l : option string) (ty : NodeType) (parent : GeoNode.t) : GeoNode.t :=
  (GeoGraph._add_child parent l ty).1.

(** The successive calls of [_add_child] as the loop makes them: each one at
    the node that the previous one returned. *)
Fixpoint walk (p : list (option string)) (tys : list NodeType)
    (ls : list (option string)) (r : GeoNode.t) : GeoNode.t :=
  match tys, ls with
  | ty :: tys', l :: ls' => walk (p ++ [l]) tys' ls' (GeoNode.update_at p (add l ty) r)
  | _, _ => r
  end.

(** The same calls seen from the parent: get or create the child, continue
    inside it, and store the outcome under the child's label. *)
Fixpoint descend (tys : list NodeType) (ls : list (option string))
    (parent : GeoNode.t) : GeoNode.t :=
  match tys, ls with
  | ty :: tys', l :: ls' =>
      let '(parent', child) := GeoGraph._add_child parent l ty in
      GeoNode.set_children parent'
        (<[l := descend tys' ls' child]> (GeoNode.children parent'))
  | _, _ => parent
  end.

(** The graph after a sequence of calls of [add_child], whatever each call
    returned or raised. *)
Definition add_children (g : GeoGraph.t) (es : list GeoEntry.t) : GeoGraph.t :=
  foldl (λ g e, (GeoGraph.add_child g e).2) g es.

(** The type one level below, if there is one. *)
Definition next_type (ty : NodeType) : option NodeType :=
  match ty with
  | PLANET => Some COUNTRY | COUNTRY => Some REGION | REGION => Some CITY
  | CITY => Some POSTCODE | POSTCODE => Some STREET | STREET => Some NUMBER
  | NUMBER => Some UNIT | UNIT => None
  end.

(** The members of the enum after [ty]. *)
Definition below (ty : NodeType) : list NodeType :=
  drop (S (Z.to_nat (GeoNode.value ty))) GeoNode.members.

(** Every child, at every depth, is one level below its parent. *)
#[warnings="-register-all"]
Inductive levels_ok : GeoNode.t → Prop :=
| levels_ok_node n :
    (∀ k c, GeoNode.children n !! k = Some c →
            next_type (GeoNode.node_type n) = Some (GeoNode.node_type c) ∧ levels_ok c) →
    levels_ok n.

(** Every child, at every depth, is stored under its own label. *)
#[warnings="-register-all"]
Inductive labels_ok : GeoNode.t → Prop :=
| labels_ok_node n :
    (∀ k c, GeoNode.children n !! k = Some c → GeoNode.label c = k ∧ labels_ok c) →
    labels_ok n.

(** The children dicts along the path [ls] hold no other key than the next
    key of [ls]. *)
Fixpoint only_path (ls : list (option string)) (n : GeoNode.t) : Prop :=
  match ls with
  | [] => True
  | l :: ls' =>
      ∀ k c, GeoNode.children n !! k = Some c → k = l ∧ only_path ls' c
  end.

(** The frame in which a flow ends. *)
Definition frame_of (fl : GeoGraph.flow) : GeoGraph.frame :=
  match fl with
  | GeoGraph.Next f | GeoGraph.Return f | GeoGraph.Raise _ f => f
  end.

(** The child in which the descent continues. *)
Definition child_for (l : option string) (ty : NodeType) (parent : GeoNode.t) : GeoNode.t :=
  default (GeoNode.new l ty) (GeoNode.children parent !! l).

(** Every node of [before] is still in [after], at the same place, with its
    label, its type and at least the children keys it had. *)
Definition keeps (before after : GeoNode.t) : Prop :=
  ∀ p m, GeoNode.node_at p before = Some m →
    ∃ m', GeoNode.node_at p after = Some m'
          ∧ GeoNode.label m' = GeoNode.label m
          ∧ GeoNode.node_type m' = GeoNode.node_type m
          ∧ dom (GeoNode.children m) ⊆ dom (GeoNode.children m').

(** The shape that the script gives the graph and that every call keeps:
    levels in order below a PLANET root labelled "Earth", whose only child
    is the country node, stored under and labelled with the country's
    name. *)
Definition graph_ok (g : GeoGraph.t) : Prop :=
  levels_ok (GeoGraph.root g)
  ∧ GeoNode.node_type (GeoGraph.root g) = PLANET
  ∧ GeoNode.label (GeoGraph.root g) = Some "Earth"
  ∧ dom (GeoNode.children (GeoGraph.root g)) = {[Some GeoGraph.USA]}
  ∧ ∀ c, GeoNode.children (GeoGraph.root g) !! Some GeoGraph.USA = Some c →
         GeoNode.label c = Some GeoGraph.USA.

(** [e] is valid and has the given region, city, postcode and street. *)
Definition on_street (r ci p s : string) (e : GeoEntry.t) : Prop :=
  GeoEntry.is_valid e = true
  ∧ GeoEntry.region e = Some r ∧ GeoEntry.city e = Some ci
  ∧ GeoEntry.postcode e = Some p ∧ GeoEntry.street e = Some s.

(** The script ends on an exception of the reading loop. *)
Definition aborts (r : Main.run) : Prop := ∃ x s, r = Main.Uncaught x s.

#[global] Instance GeoEntry_eq_dec : EqDecision GeoEntry.t.
Proof. solve_decision. Defined.

(** The entries of the lines that the loop gets to: the lines with
    properties among the first hundred. *)
Definition entries_read (file : list (option (gmap string string))) : list GeoEntry.t :=
  GeoEntry.from_properties <$> omap id (take 100 file).

(** A label as [get_entry] gives it: a string that [strip] leaves as it is
    and that is not empty. *)
Definition clean (l : option string) : Prop :=
  ∃ v, l = Some v ∧ Str.strip v = v ∧ v ≠ EmptyString.

(** The number of nodes of a tree. *)
Fixpoint size (n : GeoNode.t) : nat :=
  S (map_fold (λ _ c acc, size c + acc) 0 (GeoNode.children n)).

(** The nodes at depth [d], each with its reference. *)
Fixpoint level (root : GeoNode.t) (d : nat) : list Main.item :=
  match d with
  | 0 => [([], root)]
  | S d => level root d ≫= Main.children_of
  end.

(** The edges from a node to its children. *)
Definition edges_of (it : Main.item) : list (Main.item * Main.item) :=
  (λ child, (it, child)) <$> Main.children_of it.

(** The edges that leave the nodes above depth [D], level after level. *)
Fixpoint edges_upto (root : GeoNode.t) (D : nat) : list (Main.item * Main.item) :=
  match D with
  | 0 => []
  | S D => edges_upto root D ++ (level root D ≫= edges_of)
  end.

(** The number of nodes above depth [D]. *)
Fixpoint nodes_upto (root : GeoNode.t) (D : nat) : nat :=
  match D with
  | 0 => 0
  | S D => nodes_upto root D + length (level root D)
  end.

(** The depth of the node that an edge leaves. *)
Definition depth_of (e : Main.item * Main.item) : nat := length e.1.1.

(** The dict of the fields that [from_properties] extracts from
    [Examples.props_100]. *)
Definition props_100_extracted : gmap string string :=
  <["region" := "CA"]> (<["postcode" := "92101"]> (<["city" := "San Diego"]>
  (<["street" := "Main St"]> (<["number" := "100"]> ∅)))).

(** ** Trees and references *)

Section tree.
Implicit Types (n c : GeoNode.t) (p q : list (option string)) (k l : option string).
Implicit Types (F G : GeoNode.t → GeoNode.t).

Lemma set_children_id n : GeoNode.set_children n (GeoNode.children n) = n.
Proof. by destruct n. Qed.

Lemma update_at_ext p F G n :
  (∀ x, F x = G x) → GeoNode.update_at p F n = GeoNode.update_at p G n.
Proof.
  intros HFG. revert n. induction p as [|k p IH]; intros n; simpl; [done|].
  f_equal. apply alter_ext. intros x _. apply IH.
Qed.

Lemma update_at_app p q F n :
  GeoNode.update_at (p ++ q) F n = GeoNode.update_at p (GeoNode.update_at q F) n.
Proof.
  revert n. induction p as [|k p IH]; intros n; simpl; [done|].
  f_equal. apply alter_ext. intros x _. apply IH.
Qed.

Lemma update_at_compose p F G n :
  GeoNode.update_at p F (GeoNode.update_at p G n) = GeoNode.update_at p (F ∘ G) n.
Proof.
  revert n. induction p as [|k p IH]; intros n; simpl; [done|].
  unfold GeoNode.set_children at 1 3. simpl. f_equal.
  rewrite alter_alter_eq. apply alter_ext. intros x _. apply IH.
Qed.

Lemma update_at_lookup k F n c :
  GeoNode.children n !! k = Some c →
  GeoNode.update_at [k] F n
  = GeoNode.set_children n (<[k := F c]> (GeoNode.children n)).
Proof.
  intros Hc. simpl. f_equal. by apply alter_alt_Some.
Qed.

Lemma update_at_missing k p F n :
  GeoNode.children n !! k = None → GeoNode.update_at (k :: p) F n = n.
Proof.
  intros Hk. simpl. rewrite alter_alt, Hk. apply set_children_id.
Qed.

Lemma node_at_app p q n :
  GeoNode.node_at (p ++ q) n = GeoNode.node_at p n ≫= GeoNode.node_at q.
Proof.
  revert n. induction p as [|k p IH]; intros n; simpl; [done|].
  destruct (GeoNode.children n !! k); [apply IH|done].
Qed.

Lemma node_at_new_cons k p l ty : GeoNode.node_at (k :: p) (GeoNode.new l ty) = None.
Proof. simpl. by rewrite lookup_empty. Qed.

End tree.

(** ** [_add_child] and the walk *)

Section walk.
Implicit Types (n c parent : GeoNode.t) (p q ls : list (option string)).
Implicit Types (k l : option string) (ty : NodeType) (tys : list NodeType).

Lemma _add_child_found parent l ty c :
  GeoNode.children parent !! l = Some c →
  GeoGraph._add_child parent l ty = (parent, c).
Proof. intros Hc. unfold GeoGraph._add_child. by rewrite Hc. Qed.

Lemma _add_child_missing parent l ty :
  GeoNode.children parent !! l = None →
  GeoGraph._add_child parent l ty
  = (GeoNode.set_children parent (<[l := GeoNode.new l ty]> (GeoNode.children parent)),
     GeoNode.new l ty).
Proof. intros Hc. unfold GeoGraph._add_child. by rewrite Hc. Qed.

(** After the call the returned child is in the parent's dict, under the
    label that was asked for. *)
Lemma _add_child_lookup parent l ty :
  GeoNode.children (GeoGraph._add_child parent l ty).1 !! l
  = Some (GeoGraph._add_child parent l ty).2.
Proof.
  unfold GeoGraph._add_child.
  destruct (GeoNode.children parent !! l) eqn:Hc; simpl; [done|].
  apply lookup_insert_eq.
Qed.

Lemma _add_child_child parent l ty :
  (GeoGraph._add_child parent l ty).2
  = default (GeoNode.new l ty) (GeoNode.children parent !! l).
Proof. unfold GeoGraph._add_child. by destruct (GeoNode.children parent !! l). Qed.

Lemma update_at_id p n : GeoNode.update_at p (λ x, x) n = n.
Proof.
  revert n. induction p as [|k p IH]; intros n; simpl; [done|].
  rewrite (alter_ext _ id); [|by intros x _; apply IH].
  rewrite alter_id by done. apply set_children_id.
Qed.

Lemma descend_nil_l ls parent : descend [] ls parent = parent.
Proof. done. Qed.

Lemma descend_nil_r tys parent : descend tys [] parent = parent.
Proof. by destruct tys. Qed.

Lemma descend_cons ty tys l ls parent :
  descend (ty :: tys) (l :: ls) parent
  = GeoNode.update_at [l] (descend tys ls) (add l ty parent).
Proof.
  unfold add. simpl descend.
  pose proof (_add_child_lookup parent l ty) as Hl.
  destruct (GeoGraph._add_child parent l ty) as [parent' child]; simpl in *.
  by rewrite alter_alt, Hl.
Qed.

(** The loop's sequence of mutations, each at the node the previous call
    returned, is one descent from the node where the walk starts. *)
Lemma walk_descend p tys ls r :
  walk p tys ls r = GeoNode.update_at p (descend tys ls) r.
Proof.
  revert p ls r. induction tys as [|ty tys IH]; intros p ls r.
  { simpl. by rewrite update_at_id. }
  destruct ls as [|l ls].
  { simpl. by rewrite update_at_id. }
  simpl walk. rewrite IH, update_at_app, update_at_compose.
  apply update_at_ext. intros x. by rewrite descend_cons.
Qed.

End walk.

(** ** What one call of [add_child] does *)

Section run.
Implicit Types (g : GeoGraph.t) (e : GeoEntry.t) (c : GeoNode.t).

Lemma is_valid_true e :
  GeoEntry.is_valid e = true ↔
  is_Some (GeoEntry.region e) ∧ is_Some (GeoEntry.postcode e)
  ∧ is_Some (GeoEntry.city e) ∧ is_Some (GeoEntry.street e).
Proof.
  unfold GeoEntry.is_valid.
  destruct (GeoEntry.region e), (GeoEntry.postcode e), (GeoEntry.city e),
    (GeoEntry.street e); simpl; split; try done;
    intros (H1 & H2 & H3 & H4); by (inversion H1 || inversion H2 || inversion H3 || inversion H4).
Qed.

Lemma add_child_run_invalid g e :
  GeoEntry.is_valid e = false →
  GeoGraph.add_child_run g e = GeoGraph.Raise ValueError (GeoGraph.enter g).
Proof. intros He. unfold GeoGraph.add_child_run. by rewrite He. Qed.

Lemma add_child_run_no_country g e :
  GeoEntry.is_valid e = true →
  GeoNode.children (GeoGraph.root g) !! Some GeoGraph.USA = None →
  GeoGraph.add_child_run g e
  = GeoGraph.Raise KeyError
      (GeoGraph.mkframe (GeoGraph.root g) (Some []) [PLANET; COUNTRY] 0).
Proof.
  intros He Hc. unfold GeoGraph.add_child_run. rewrite He. simpl.
  by rewrite Hc.
Qed.

Lemma add_child_run_seeded g e c :
  GeoEntry.is_valid e = true →
  GeoNode.children (GeoGraph.root g) !! Some GeoGraph.USA = Some c →
  GeoGraph.add_child_run g e
  = (if decide (length (labels e) = 6) then GeoGraph.Next else GeoGraph.Return)
      (GeoGraph.mkframe
         (walk [Some GeoGraph.USA] lower_types (labels e) (GeoGraph.root g))
         (Some (Some GeoGraph.USA :: labels e))
         (take (3 + length (labels e)) GeoNode.members)
         (length (labels e))).
Proof.
  intros He Hc. unfold GeoGraph.add_child_run. rewrite He.
  destruct e as [r p ci s n u]. unfold labels. simpl.
  rewrite Hc.
  by destruct n as [n|], u as [u|].
Qed.

(** The result of a call, by cases on the entry and on the presence of the
    country node. *)
Lemma add_child_result g e :
  (GeoGraph.add_child g e).1
  = if GeoEntry.is_valid e
    then match GeoNode.children (GeoGraph.root g) !! Some GeoGraph.USA with
         | Some _ => Returned
         | None => Raised KeyError
         end
    else Raised ValueError.
Proof.
  unfold GeoGraph.add_child.
  destruct (GeoEntry.is_valid e) eqn:He.
  - destruct (GeoNode.children (GeoGraph.root g) !! Some GeoGraph.USA) as [c|] eqn:Hc.
    + rewrite (add_child_run_seeded g e c He Hc). by case_decide.
    + by rewrite (add_child_run_no_country g e He Hc).
  - by rewrite (add_child_run_invalid g e He).
Qed.

(** The graph after a call: a valid entry is one descent from the country
    node, any other entry leaves the graph as it is. *)
Lemma add_child_graph g e :
  (GeoGraph.add_child g e).2
  = GeoGraph.mk
      (if GeoEntry.is_valid e
       then GeoNode.update_at [Some GeoGraph.USA] (descend lower_types (labels e))
              (GeoGraph.root g)
       else GeoGraph.root g).
Proof.
  unfold GeoGraph.add_child.
  destruct (GeoEntry.is_valid e) eqn:He.
  - destruct (GeoNode.children (GeoGraph.root g) !! Some GeoGraph.USA) as [c|] eqn:Hc.
    + rewrite (add_child_run_seeded g e c He Hc), walk_descend. by case_decide.
    + rewrite (add_child_run_no_country g e He Hc).
      by rewrite update_at_missing.
  - by rewrite (add_child_run_invalid g e He).
Qed.

Lemma add_child_root g e :
  GeoGraph.root (GeoGraph.add_child g e).2
  = if GeoEntry.is_valid e
    then GeoNode.update_at [Some GeoGraph.USA] (descend lower_types (labels e))
           (GeoGraph.root g)
    else GeoGraph.root g.
Proof. by rewrite add_child_graph. Qed.

End run.

(** ** One descent *)

Lemma descend_step ty tys l ls parent :
  descend (ty :: tys) (l :: ls) parent
  = GeoNode.set_children parent
      (<[l := descend tys ls (child_for l ty parent)]> (GeoNode.children parent)).
Proof.
  unfold child_for. simpl descend. unfold GeoGraph._add_child.
  destruct (GeoNode.children parent !! l) as [c|]; simpl; [done|].
  unfold GeoNode.set_children. simpl. by rewrite insert_insert_eq.
Qed.

Local Arguments descend : simpl never.

Section descend.
Implicit Types (n c parent : GeoNode.t) (p q ls : list (option string)).
Implicit Types (k l : option string) (ty : NodeType) (tys : list NodeType).

Lemma descend_stop tys ls parent :
  tys = [] ∨ ls = [] → descend tys ls parent = parent.
Proof. intros [-> | ->]; [done|by destruct tys]. Qed.

Lemma descend_node_type tys ls parent :
  GeoNode.node_type (descend tys ls parent) = GeoNode.node_type parent.
Proof. destruct tys, ls; try done. by rewrite descend_step. Qed.

Lemma descend_label tys ls parent :
  GeoNode.label (descend tys ls parent) = GeoNode.label parent.
Proof. destruct tys, ls; try done. by rewrite descend_step. Qed.

Lemma descend_children_other ty tys l ls parent k :
  k ≠ l →
  GeoNode.children (descend (ty :: tys) (l :: ls) parent) !! k
  = GeoNode.children parent !! k.
Proof. intros Hk. rewrite descend_step. simpl. by rewrite lookup_insert_ne. Qed.

Lemma descend_children_same ty tys l ls parent :
  GeoNode.children (descend (ty :: tys) (l :: ls) parent) !! l
  = Some (descend tys ls (child_for l ty parent)).
Proof. rewrite descend_step. simpl. by rewrite lookup_insert_eq. Qed.

(** Descending twice along the same labels is descending once. *)
Lemma descend_idempotent tys ls parent :
  descend tys ls (descend tys ls parent) = descend tys ls parent.
Proof.
  revert ls parent. induction tys as [|ty tys IH]; intros ls parent; [done|].
  destruct ls as [|l ls]; [done|].
  rewrite (descend_step ty tys l ls (descend _ _ _)).
  unfold child_for at 1. rewrite descend_children_same. simpl.
  rewrite IH. rewrite descend_step. unfold GeoNode.set_children. simpl.
  by rewrite insert_insert_eq.
Qed.

(** Two descents from the same node commute. *)
Lemma descend_comm tys ls1 ls2 parent :
  descend tys ls1 (descend tys ls2 parent) = descend tys ls2 (descend tys ls1 parent).
Proof.
  revert ls1 ls2 parent. induction tys as [|ty tys IH]; intros ls1 ls2 parent; [done|].
  destruct ls1 as [|l1 ls1]; [done|]. destruct ls2 as [|l2 ls2]; [done|].
  rewrite (descend_step ty tys l1 ls1 (descend _ _ _)).
  rewrite (descend_step ty tys l2 ls2 (descend _ _ _)).
  unfold child_for at 1 2.
  destruct (decide (l1 = l2)) as [->|Hne].
  - rewrite !descend_children_same. simpl. rewrite IH.
    rewrite !descend_step. unfold GeoNode.set_children. simpl.
    by rewrite !insert_insert_eq.
  - rewrite (descend_children_other _ _ l2 _ _ l1) by done.
    rewrite (descend_children_other _ _ l1 _ _ l2) by done.
    rewrite !descend_step. unfold GeoNode.set_children, child_for. simpl.
    by rewrite insert_insert_ne.
Qed.

End descend.

(** ** What a descent keeps, and what it adds *)

Section invariants.
Implicit Types (n c parent : GeoNode.t) (p q ls : list (option string)).
Implicit Types (k l : option string) (ty : NodeType) (tys : list NodeType).

Lemma keeps_refl n : keeps n n.
Proof. intros p m Hm. exists m. by rewrite Hm. Qed.

(** Replacing (or adding) the child under [l] by a node that keeps the old
    child keeps the parent. *)
Lemma keeps_set_child n l d :
  (∀ c, GeoNode.children n !! l = Some c → keeps c d) →
  keeps n (GeoNode.set_children n (<[l := d]> (GeoNode.children n))).
Proof.
  intros Hd [|k p] m Hm; simpl in *.
  - injection Hm as <-. eexists. split; [done|]. simpl.
    repeat split. rewrite dom_insert_L. set_solver.
  - destruct (GeoNode.children n !! k) as [c|] eqn:Hk; [|done].
    destruct (decide (k = l)) as [->|Hne].
    + rewrite lookup_insert_eq. by apply (Hd c).
    + rewrite lookup_insert_ne, Hk by done. by apply keeps_refl.
Qed.

Lemma keeps_descend tys ls n : keeps n (descend tys ls n).
Proof.
  revert ls n. induction tys as [|ty tys IH]; intros ls n; [apply keeps_refl|].
  destruct ls as [|l ls]; [apply keeps_refl|].
  rewrite descend_step. apply keeps_set_child. intros c Hc.
  unfold child_for. rewrite Hc. apply IH.
Qed.

Lemma keeps_update_at k F n :
  (∀ c, keeps c (F c)) → keeps n (GeoNode.update_at [k] F n).
Proof.
  intros HF. destruct (GeoNode.children n !! k) as [c|] eqn:Hk.
  - rewrite (update_at_lookup k F n c Hk). apply keeps_set_child.
    intros c' Hc'. rewrite Hk in Hc'. injection Hc' as <-. apply HF.
  - rewrite update_at_missing by done. apply keeps_refl.
Qed.

Lemma below_cons t ty tys :
  below t = ty :: tys → next_type t = Some ty ∧ tys = below ty.
Proof. destruct t; intros [= <- <-]; done. Qed.

Lemma levels_ok_children n k c :
  levels_ok n → GeoNode.children n !! k = Some c →
  next_type (GeoNode.node_type n) = Some (GeoNode.node_type c) ∧ levels_ok c.
Proof. intros [n' H] Hc. by apply (H k). Qed.

Lemma levels_ok_new l ty : levels_ok (GeoNode.new l ty).
Proof. constructor. intros k c Hc. simpl in Hc. by rewrite lookup_empty in Hc. Qed.

(** A descent with the types below the node it starts from keeps the levels
    in order. *)
Lemma levels_ok_descend ls tys n :
  levels_ok n → tys = below (GeoNode.node_type n) → levels_ok (descend tys ls n).
Proof.
  revert tys n. induction ls as [|l ls IH]; intros tys n Hn Htys.
  { by rewrite descend_stop by auto. }
  destruct tys as [|ty tys]; [done|].
  symmetry in Htys. apply below_cons in Htys as [Hnext Htys].
  assert (levels_ok (child_for l ty n) ∧ GeoNode.node_type (child_for l ty n) = ty)
    as [Hc Hcty].
  { unfold child_for. destruct (GeoNode.children n !! l) as [c|] eqn:Hl; simpl.
    - destruct (levels_ok_children n l c Hn Hl) as [Hty Hc]. split; [done|congruence].
    - split; [apply levels_ok_new|done]. }
  rewrite descend_step. constructor. intros k c Hk. simpl in Hk.
  destruct (decide (k = l)) as [->|Hne].
  - rewrite lookup_insert_eq in Hk. injection Hk as <-.
    rewrite descend_node_type, Hcty. split; [done|]. apply IH; [done|congruence].
  - rewrite lookup_insert_ne in Hk by done. by apply (levels_ok_children n k c).
Qed.

(** Where the levels are in order below a root of type [PLANET], the type
    of a node is its depth. *)
Lemma levels_ok_depth p n m :
  levels_ok n → GeoNode.node_at p n = Some m →
  GeoNode.value (GeoNode.node_type m)
  = (GeoNode.value (GeoNode.node_type n) + Z.of_nat (length p))%Z.
Proof.
  revert n. induction p as [|k p IH]; intros n Hn Hm; simpl in Hm.
  - injection Hm as <-. simpl. lia.
  - destruct (GeoNode.children n !! k) as [c|] eqn:Hk; [|done].
    destruct (levels_ok_children n k c Hn Hk) as [Hty Hc].
    rewrite (IH c Hc Hm). simpl length.
    destruct (GeoNode.node_type n); simplify_eq/=; rewrite <- Hty; simpl; lia.
Qed.

Lemma only_path_new ls l ty : only_path ls (GeoNode.new l ty).
Proof. destruct ls; [done|]. intros k c Hc. simpl in Hc. by rewrite lookup_empty in Hc. Qed.

(** A descent along [ls] (and further) adds no key beside [ls]. *)
Lemma only_path_descend ls rest tys n :
  only_path ls n → only_path ls (descend tys (ls ++ rest) n).
Proof.
  revert tys n. induction ls as [|l ls IH]; intros tys n Hn; [done|].
  destruct tys as [|ty tys]; [done|].
  simpl app. rewrite descend_step. intros k c Hk. simpl in Hk.
  destruct (decide (k = l)) as [->|Hne].
  - rewrite lookup_insert_eq in Hk. injection Hk as <-. split; [done|].
    apply IH. unfold child_for.
    destruct (GeoNode.children n !! l) as [c|] eqn:Hl; simpl.
    + by apply (Hn l c).
    + apply only_path_new.
  - rewrite lookup_insert_ne in Hk by done. by destruct (Hn k c Hk).
Qed.

Lemma only_path_node_at ls q n m :
  only_path ls n → GeoNode.node_at q n = Some m → length q ≤ length ls →
  q `prefix_of` ls.
Proof.
  revert ls n. induction q as [|k q IH]; intros ls n Hn Hm Hlen.
  { apply prefix_nil. }
  destruct ls as [|l ls]; [simpl in Hlen; lia|].
  simpl in Hm. destruct (GeoNode.children n !! k) as [c|] eqn:Hk; [|done].
  destruct (Hn k c Hk) as [-> Hc].
  apply prefix_cons. apply (IH ls c); [done..|simpl in Hlen; lia].
Qed.

(** The node at the end of the first labels of a descent: the node that was
    there, or a new one, in which the descent continues. *)
Lemma node_at_descend ls0 l tys0 ty tys1 ls1 n :
  length tys0 = length ls0 →
  GeoNode.node_at (ls0 ++ [l]) (descend (tys0 ++ ty :: tys1) (ls0 ++ l :: ls1) n)
  = Some (descend tys1 ls1
            (default (GeoNode.new l ty) (GeoNode.node_at (ls0 ++ [l]) n))).
Proof.
  revert tys0 n. induction ls0 as [|l0 ls0 IH]; intros tys0 n Hlen.
  - destruct tys0; [|done]. simpl app. rewrite descend_step. simpl.
    rewrite lookup_insert_eq. unfold child_for.
    by destruct (GeoNode.children n !! l).
  - destruct tys0 as [|ty0 tys0]; [done|]. simpl in Hlen.
    simpl app. rewrite descend_step. simpl GeoNode.node_at.
    rewrite lookup_insert_eq. rewrite IH by lia. unfold child_for.
    destruct (GeoNode.children n !! l0) as [c|]; simpl; [done|].
    destruct ls0; simpl; by rewrite lookup_empty.
Qed.

(** A node that a descent adds lies on the path of the labels, and has the
    type that goes with its depth. *)
Lemma new_node_descend tys ls n q m :
  GeoNode.node_at q (descend tys ls n) = Some m → GeoNode.node_at q n = None →
  ∃ i, q = take (S i) ls ∧ i < length ls ∧ tys !! i = Some (GeoNode.node_type m)
       ∧ ls !! i = Some (GeoNode.label m).
Proof.
  revert ls n q. induction tys as [|ty tys IH]; intros ls n q Hm Hq.
  { rewrite descend_stop in Hm by auto. congruence. }
  destruct ls as [|l ls]. { rewrite descend_stop in Hm by auto. congruence. }
  destruct q as [|k q]; [done|].
  rewrite descend_step in Hm. simpl in Hm, Hq.
  destruct (decide (k = l)) as [->|Hne].
  - rewrite lookup_insert_eq in Hm. unfold child_for in Hm.
    destruct (GeoNode.children n !! l) as [c|] eqn:Hl; simpl in Hm.
    + destruct (IH ls c q Hm Hq) as (i & -> & Hi & Hty & Hlab).
      exists (S i). simpl. repeat split; [lia|done..].
    + destruct q as [|k' q].
      * simpl in Hm. injection Hm as <-. exists 0. simpl.
        rewrite descend_node_type, descend_label, take_0. simpl.
        repeat split; [lia|done..].
      * destruct (IH ls (GeoNode.new l ty) (k' :: q) Hm (node_at_new_cons _ _ _ _))
          as (i & Hq' & Hi & Hty & Hlab).
        exists (S i). rewrite Hq'. simpl. repeat split; [lia|done..].
  - rewrite lookup_insert_ne in Hm by done. congruence.
Qed.

End invariants.

(** ** [str.strip] *)

Section strip.
Implicit Types (s pre post : string) (c : ascii).

Lemma all_space_app s1 s2 :
  Str.all_space (s1 +:+ s2) = Str.all_space s1 && Str.all_space s2.
Proof.
  induction s1 as [|c s1 IH]; simpl; [done|].
  rewrite IH. by destruct (Str.isspace c).
Qed.

Lemma lstrip_decomp s :
  ∃ pre, s = pre +:+ Str.lstrip s ∧ Str.all_space pre = true.
Proof.
  induction s as [|c s (pre & IH & Hpre)]; simpl.
  - by exists EmptyString.
  - destruct (Str.isspace c) eqn:Hc.
    + exists (String c pre). simpl. rewrite Hc, Hpre. split; [|done].
      by rewrite IH at 1.
    + by exists EmptyString.
Qed.

Lemma lstrip_first s c :
  Str.first_char (Str.lstrip s) = Some c → Str.isspace c = false.
Proof.
  induction s as [|a s IH]; simpl; [done|].
  destruct (Str.isspace a) eqn:Ha; [done|]. simpl. by intros [= <-].
Qed.

Lemma lstrip_all_space s : Str.all_space s = true → Str.lstrip s = EmptyString.
Proof.
  induction s as [|a s IH]; simpl; [done|].
  destruct (Str.isspace a); [done|]. by intros [=].
Qed.

Lemma rstrip_decomp s :
  ∃ post, s = Str.rstrip s +:+ post ∧ Str.all_space post = true.
Proof.
  induction s as [|c s (post & IH & Hpost)]; simpl.
  - by exists EmptyString.
  - destruct (Str.rstrip s) as [|b r] eqn:Hr.
    + change (s = post) in IH. subst post. destruct (Str.isspace c) eqn:Hc.
      * exists (String c s). simpl. by rewrite Hc, Hpost.
      * by exists s.
    + exists post. simpl. split; [|done]. f_equal. by rewrite IH at 1.
Qed.

Lemma rstrip_last s c :
  Str.last_char (Str.rstrip s) = Some c → Str.isspace c = false.
Proof.
  induction s as [|a s IH]; simpl; [done|].
  destruct (Str.rstrip s) as [|b r] eqn:Hr.
  - destruct (Str.isspace a) eqn:Ha; simpl; [done|]. by intros [= <-].
  - done.
Qed.

Lemma rstrip_first s c :
  Str.first_char (Str.rstrip s) = Some c → Str.first_char s = Some c.
Proof.
  destruct s as [|a s]; simpl; [done|].
  destruct (Str.rstrip s); [destruct (Str.isspace a)|]; done.
Qed.

(** [strip] removes a white space prefix and a white space suffix, and what
    it leaves neither starts nor ends with white space. *)
Lemma strip_spec s :
  (∃ pre post, s = pre +:+ Str.strip s +:+ post
               ∧ Str.all_space pre = true ∧ Str.all_space post = true)
  ∧ (∀ c, Str.first_char (Str.strip s) = Some c → Str.isspace c = false)
  ∧ (∀ c, Str.last_char (Str.strip s) = Some c → Str.isspace c = false).
Proof.
  unfold Str.strip. repeat split.
  - destruct (lstrip_decomp s) as (pre & Hs & Hpre).
    destruct (rstrip_decomp (Str.lstrip s)) as (post & Hl & Hpost).
    exists pre, post. by rewrite <- Hl.
  - intros c Hc. by apply (lstrip_first s), rstrip_first.
  - intros c. apply rstrip_last.
Qed.

Lemma strip_empty s :
  Str.truthy (Str.strip s) = false ↔ Str.all_space s = true.
Proof.
  split.
  - intros Ht. destruct (strip_spec s) as ((pre & post & Hs & Hpre & Hpost) & _).
    destruct (Str.strip s); [|done]. rewrite Hs, all_space_app, Hpre. done.
  - intros Hs. unfold Str.strip. by rewrite lstrip_all_space.
Qed.

Lemma truthy_nonempty s : Str.truthy s = true ↔ s ≠ EmptyString.
Proof. by destruct s. Qed.

Lemma get_entry_Some properties name v :
  GeoEntry.get_entry properties name = Some v ↔
  ∃ raw, properties !! name = Some raw ∧ v = Str.strip raw ∧ v ≠ EmptyString.
Proof.
  unfold GeoEntry.get_entry. destruct (properties !! name) as [raw|]; simpl.
  - destruct (Str.truthy (Str.strip raw)) eqn:Ht; split.
    + intros [= <-]. exists raw. by rewrite <- truthy_nonempty.
    + by intros (? & [= <-] & -> & _).
    + done.
    + intros (? & [= <-] & -> & Hne). apply truthy_nonempty in Hne. congruence.
  - split; [done|]. by intros (? & ? & _).
Qed.

Lemma get_entry_None properties name :
  GeoEntry.get_entry properties name = None ↔
  properties !! name = None
  ∨ ∃ raw, properties !! name = Some raw ∧ Str.strip raw = EmptyString.
Proof.
  unfold GeoEntry.get_entry. destruct (properties !! name) as [raw|]; simpl.
  - destruct (Str.strip raw) eqn:Hs; simpl; split; try done.
    + intros _. right. by exists raw.
    + intros [|(? & [= <-] & ?)]; congruence.
  - split; [by left|done].
Qed.

End strip.

(** ** Validation, the middle levels and the fields of an entry *)

(** C2.  An entry is valid exactly when region, postcode, city and street
    are all there.  On an entry that is not valid, [add_child] raises
    [ValueError] and the graph is the one it was given: nothing was added
    at any level.  [ValueError] is raised for no other entry, and with the
    country node in place no other exception is raised either, so that the
    call raises if and only if the entry is not valid. *)
Theorem add_child_rejects_incomplete (g : GeoGraph.t) (e : GeoEntry.t) :
  (GeoEntry.is_valid e = true ↔
     is_Some (GeoEntry.region e) ∧ is_Some (GeoEntry.postcode e)
     ∧ is_Some (GeoEntry.city e) ∧ is_Some (GeoEntry.street e))
  ∧ (GeoEntry.is_valid e = false →
       GeoGraph.add_child g e = (Raised ValueError, g))
  ∧ ((GeoGraph.add_child g e).1 = Raised ValueError ↔ GeoEntry.is_valid e = false)
  ∧ (is_Some (GeoNode.children (GeoGraph.root g) !! Some GeoGraph.USA) →
       ((∃ x, (GeoGraph.add_child g e).1 = Raised x) ↔ GeoEntry.is_valid e = false)).
Proof.
  split; [apply is_valid_true|]. split; [|split].
  - intros He. unfold GeoGraph.add_child.
    rewrite (add_child_run_invalid g e He). by destruct g.
  - rewrite add_child_result. destruct (GeoEntry.is_valid e); [|done].
    by destruct (GeoNode.children (GeoGraph.root g) !! Some GeoGraph.USA).
  - intros [c Hc]. rewrite add_child_result, Hc.
    destruct (GeoEntry.is_valid e); split; try done.
    + by intros [x ?].
    + by exists ValueError.
Qed.

(** C3.  For a valid entry and a graph with the country node in place, the
    first six iterations of the loop end in [Next]: the tree is the one
    obtained by four calls of [_add_child], for REGION, CITY, POSTCODE and
    STREET in this order, each one keyed by the entry's field of that name
    and made at the node the previous call returned, and [cur_node] is the
    STREET node.  The call of [add_child] is the two last iterations from
    there.  Each of the four fields is there, and at each of the four
    levels the body is one call of [_add_child] that goes on to the next
    iteration from any frame whose [cur_node] is set: it neither raises
    nor returns. *)
Theorem add_child_middle_levels (g : GeoGraph.t) (e : GeoEntry.t) (c : GeoNode.t) :
  GeoEntry.is_valid e = true →
  GeoNode.children (GeoGraph.root g) !! Some GeoGraph.USA = Some c →
  let p1 := [Some GeoGraph.USA] in
  let p2 := p1 ++ [GeoEntry.region e] in
  let p3 := p2 ++ [GeoEntry.city e] in
  let p4 := p3 ++ [GeoEntry.postcode e] in
  let p5 := p4 ++ [GeoEntry.street e] in
  let r1 := GeoNode.update_at p1 (add (GeoEntry.region e) REGION) (GeoGraph.root g) in
  let r2 := GeoNode.update_at p2 (add (GeoEntry.city e) CITY) r1 in
  let r3 := GeoNode.update_at p3 (add (GeoEntry.postcode e) POSTCODE) r2 in
  let r4 := GeoNode.update_at p4 (add (GeoEntry.street e) STREET) r3 in
  let f6 := GeoGraph.mkframe r4 (Some p5)
              [PLANET; COUNTRY; REGION; CITY; POSTCODE; STREET] 4 in
  GeoGraph.for_node_type [PLANET; COUNTRY; REGION; CITY; POSTCODE; STREET] e
    (GeoGraph.enter g) = GeoGraph.Next f6
  ∧ GeoGraph.add_child_run g e = GeoGraph.for_node_type [NUMBER; UNIT] e f6
  ∧ (is_Some (GeoEntry.region e) ∧ is_Some (GeoEntry.city e)
     ∧ is_Some (GeoEntry.postcode e) ∧ is_Some (GeoEntry.street e))
  ∧ ∀ node_type field f p,
      (node_type, field) ∈ [(REGION, GeoEntry.region e); (CITY, GeoEntry.city e);
                            (POSTCODE, GeoEntry.postcode e); (STREET, GeoEntry.street e)] →
      GeoGraph.cur_node f = Some p →
      GeoGraph.body e node_type f
      = GeoGraph.Next
          (GeoGraph.mkframe
             (GeoNode.update_at p (add field node_type) (GeoGraph.self_root f))
             (Some (p ++ [field])) (GeoGraph.visited f) (S (GeoGraph.calls f))).
Proof.
  intros He Hc. simpl. repeat split.
  - by rewrite Hc.
  - unfold GeoGraph.add_child_run. rewrite He. simpl. by rewrite Hc.
  - by apply is_valid_true in He as (? & ? & ? & ?).
  - by apply is_valid_true in He as (? & ? & ? & ?).
  - by apply is_valid_true in He as (? & ? & ? & ?).
  - by apply is_valid_true in He as (? & ? & ? & ?).
  - intros node_type field f p Hin Hp.
    rewrite !elem_of_cons, elem_of_nil in Hin.
    destruct Hin as [[= -> ->]|[[= -> ->]|[[= -> ->]|[[= -> ->]|[]]]]];
      simpl; unfold GeoGraph.call_add_child; by rewrite Hp.
Qed.

(** C5.  [from_properties] stores under each of the six fields the stripped
    value of the key of that name when the key is in the dict and the
    stripped value is not empty, and [None] in every other case.  The
    stripped value is the raw value without a prefix and a suffix of white
    space, and neither starts nor ends with white space.  The construction
    is a function of the dict alone, defined on every dict of strings. *)
Theorem from_properties_contract (properties : gmap string string)
    (name : string) (field : option string) :
  (name, field) ∈
    [("region", GeoEntry.region (GeoEntry.from_properties properties));
     ("postcode", GeoEntry.postcode (GeoEntry.from_properties properties));
     ("city", GeoEntry.city (GeoEntry.from_properties properties));
     ("street", GeoEntry.street (GeoEntry.from_properties properties));
     ("number", GeoEntry.number (GeoEntry.from_properties properties));
     ("unit", GeoEntry.unit (GeoEntry.from_properties properties))] →
  (∀ v, field = Some v ↔
        ∃ raw, properties !! name = Some raw ∧ v = Str.strip raw ∧ v ≠ EmptyString)
  ∧ (field = None ↔
       properties !! name = None
       ∨ ∃ raw, properties !! name = Some raw ∧ Str.strip raw = EmptyString)
  ∧ (∀ raw, properties !! name = Some raw →
       (∃ pre post, raw = pre +:+ Str.strip raw +:+ post
                    ∧ Str.all_space pre = true ∧ Str.all_space post = true)
       ∧ (∀ ch, Str.first_char (Str.strip raw) = Some ch → Str.isspace ch = false)
       ∧ (∀ ch, Str.last_char (Str.strip raw) = Some ch → Str.isspace ch = false)).
Proof.
  intros Hin. rewrite !elem_of_cons, elem_of_nil in Hin.
  assert (field = GeoEntry.get_entry properties name) as ->.
  { destruct Hin as [[= -> ->]|[[= -> ->]|[[= -> ->]|[[= -> ->]|[[= -> ->]|[[= -> ->]|[]]]]]]];
      reflexivity. }
  split; [|split].
  - intros v. apply get_entry_Some.
  - apply get_entry_None.
  - intros raw _. apply strip_spec.
Qed.

(** ** The graph as a whole *)

Section graph.
Implicit Types (g : GeoGraph.t) (e : GeoEntry.t) (c n m : GeoNode.t).
Implicit Types (p q : list (option string)).

Lemma add_child_root_seeded g e c :
  GeoEntry.is_valid e = true →
  GeoNode.children (GeoGraph.root g) !! Some GeoGraph.USA = Some c →
  GeoGraph.root (GeoGraph.add_child g e).2
  = GeoNode.set_children (GeoGraph.root g)
      (<[Some GeoGraph.USA := descend lower_types (labels e) c]>
         (GeoNode.children (GeoGraph.root g))).
Proof. intros He Hc. rewrite add_child_root, He. by apply update_at_lookup. Qed.

Lemma add_child_country g e c :
  GeoEntry.is_valid e = true →
  GeoNode.children (GeoGraph.root g) !! Some GeoGraph.USA = Some c →
  GeoNode.children (GeoGraph.root (GeoGraph.add_child g e).2) !! Some GeoGraph.USA
  = Some (descend lower_types (labels e) c).
Proof.
  intros He Hc. rewrite (add_child_root_seeded g e c He Hc). simpl.
  by rewrite lookup_insert_eq.
Qed.

Lemma add_child_keeps g e :
  keeps (GeoGraph.root g) (GeoGraph.root (GeoGraph.add_child g e).2).
Proof.
  rewrite add_child_root. destruct (GeoEntry.is_valid e); [|apply keeps_refl].
  apply keeps_update_at. intros c. apply keeps_descend.
Qed.

Lemma add_children_snoc g es e :
  add_children g (es ++ [e]) = (GeoGraph.add_child (add_children g es) e).2.
Proof. unfold add_children. by rewrite foldl_app. Qed.

Lemma levels_ok_node_at p n m :
  levels_ok n → GeoNode.node_at p n = Some m → levels_ok m.
Proof.
  revert n. induction p as [|k p IH]; intros n Hn Hm; simpl in Hm.
  - by injection Hm as <-.
  - destruct (GeoNode.children n !! k) as [c|] eqn:Hk; [|done].
    apply (IH c); [|done]. by apply (levels_ok_children n k c).
Qed.

Lemma graph_ok_country g :
  graph_ok g →
  ∃ c, GeoNode.children (GeoGraph.root g) !! Some GeoGraph.USA = Some c
       ∧ GeoNode.node_type c = COUNTRY ∧ GeoNode.label c = Some GeoGraph.USA
       ∧ levels_ok c.
Proof.
  intros (Hl & Hty & _ & Hdom & Hlab).
  assert (is_Some (GeoNode.children (GeoGraph.root g) !! Some GeoGraph.USA)) as [c Hc].
  { apply elem_of_dom. rewrite Hdom. set_solver. }
  exists c. destruct (levels_ok_children _ _ _ Hl Hc) as [Hnext Hc'].
  rewrite Hty in Hnext. simpl in Hnext. injection Hnext as Hnext.
  split; [done|]. split; [congruence|]. split; [by apply Hlab|done].
Qed.

Lemma graph_ok_init : graph_ok Main.g.
Proof.
  unfold graph_ok, Main.g. simpl. split; [|split; [done|split; [done|split]]].
  - constructor. intros k c Hc. simpl in Hc.
    apply lookup_insert_Some in Hc as [[<- <-]|[_ Hc]]; [|by rewrite lookup_empty in Hc].
    split; [done|apply levels_ok_new].
  - rewrite dom_insert_L, dom_empty_L. set_solver.
  - intros c. rewrite lookup_insert_eq. by intros [= <-].
Qed.

Lemma graph_ok_add_child g e : graph_ok g → graph_ok (GeoGraph.add_child g e).2.
Proof.
  intros Hg. destruct (graph_ok_country g Hg) as (c & Hc & Hcty & Hclab & Hcl).
  destruct (GeoEntry.is_valid e) eqn:He.
  2:{ unfold graph_ok. rewrite add_child_root, He. apply Hg. }
  destruct Hg as (Hl & Hty & Hlab & Hdom & _).
  unfold graph_ok. rewrite (add_child_root_seeded g e c He Hc). simpl.
  split; [|split; [done|split; [done|split]]].
  - constructor. intros k c' Hk. simpl in Hk.
    destruct (decide (k = Some GeoGraph.USA)) as [->|Hne].
    + rewrite lookup_insert_eq in Hk. injection Hk as <-.
      rewrite descend_node_type, Hcty. simpl. rewrite Hty. split; [done|].
      apply levels_ok_descend; [done|]. by rewrite Hcty.
    + rewrite lookup_insert_ne in Hk by done.
      exact (levels_ok_children (GeoGraph.root g) k c' Hl Hk).
  - rewrite dom_insert_L, Hdom. set_solver.
  - intros c'. rewrite lookup_insert_eq. intros [= <-]. by rewrite descend_label.
Qed.

Lemma graph_ok_add_children g es : graph_ok g → graph_ok (add_children g es).
Proof.
  revert g. induction es as [|e es IH]; intros g Hg; [done|].
  apply IH. by apply graph_ok_add_child.
Qed.

Lemma members_value i ty :
  GeoNode.members !! i = Some ty → GeoNode.value ty = Z.of_nat i.
Proof.
  do 8 (destruct i as [|i]; [by intros [= <-]|]). done.
Qed.

End graph.

(** C6.  In the graph that the script sets up, after any sequence of calls
    of [add_child], every child of every node is exactly one level below
    its parent in the order of the enum, the type of a node is its depth,
    the root is the PLANET node "Earth", and the root has one child and no
    other: the COUNTRY node, under the country's name. *)
Theorem add_child_keeps_levels (es : list GeoEntry.t) :
  let root := GeoGraph.root (add_children Main.g es) in
  (∀ p n k c, GeoNode.node_at p root = Some n → GeoNode.children n !! k = Some c →
     GeoNode.value (GeoNode.node_type c) = (GeoNode.value (GeoNode.node_type n) + 1)%Z
     ∧ next_type (GeoNode.node_type n) = Some (GeoNode.node_type c))
  ∧ (∀ p n, GeoNode.node_at p root = Some n →
       GeoNode.members !! length p = Some (GeoNode.node_type n))
  ∧ GeoNode.node_type root = PLANET
  ∧ GeoNode.label root = Some "Earth"
  ∧ dom (GeoNode.children root) = {[Some GeoGraph.USA]}
  ∧ ∃ c, GeoNode.children root !! Some GeoGraph.USA = Some c
         ∧ GeoNode.node_type c = COUNTRY
         ∧ GeoNode.label c = Some GeoGraph.USA.
Proof.
  pose proof (graph_ok_add_children Main.g es graph_ok_init) as Hg.
  destruct (graph_ok_country _ Hg) as (c & Hc & Hcty & Hclab & _).
  destruct Hg as (Hl & Hty & Hlab & Hdom & _).
  simpl. split; [|split; [|split; [done|split; [done|split; [done|by exists c]]]]].
  - intros p n k c' Hn Hk.
    pose proof (levels_ok_node_at p _ n Hl Hn) as Hn'.
    destruct (levels_ok_children n k c' Hn' Hk) as [Hnext _].
    split; [|done].
    destruct (GeoNode.node_type n); simplify_eq/=; by rewrite <- Hnext.
  - intros p n Hn. pose proof (levels_ok_depth p _ n Hl Hn) as Hd.
    rewrite Hty in Hd.
    assert (length p = Z.to_nat (GeoNode.value (GeoNode.node_type n))) as ->
      by (simpl in Hd; lia).
    by destruct (GeoNode.node_type n).
Qed.

(** C9.  Whatever the graph and the entry, and whether the call returns or
    raises, every node that was in the tree before a call of [add_child] is
    in the tree after it, at the same place, with the same label, the same
    type and every child key it had (each child being, by the same
    statement, a node that was kept): the call only adds entries to
    children dicts. *)
Theorem add_child_monotone (g : GeoGraph.t) (e : GeoEntry.t)
    (p : list (option string)) (m : GeoNode.t) :
  GeoNode.node_at p (GeoGraph.root g) = Some m →
  ∃ m', GeoNode.node_at p (GeoGraph.root (GeoGraph.add_child g e).2) = Some m'
        ∧ GeoNode.label m' = GeoNode.label m
        ∧ GeoNode.node_type m' = GeoNode.node_type m
        ∧ dom (GeoNode.children m) ⊆ dom (GeoNode.children m')
        ∧ ∀ k c, GeoNode.children m !! k = Some c →
            ∃ c', GeoNode.children m' !! k = Some c'
                  ∧ GeoNode.label c' = GeoNode.label c
                  ∧ GeoNode.node_type c' = GeoNode.node_type c.
Proof.
  intros Hm. pose proof (add_child_keeps g e) as Hk.
  destruct (Hk p m Hm) as (m' & Hm' & Hlab & Hty & Hdom).
  exists m'. do 4 (split; [done|]). intros k c Hc.
  assert (GeoNode.node_at (p ++ [k]) (GeoGraph.root g) = Some c) as Hpk.
  { rewrite node_at_app, Hm. simpl. by rewrite Hc. }
  destruct (Hk _ _ Hpk) as (c' & Hc' & Hclab & Hcty & _).
  exists c'. rewrite node_at_app, Hm' in Hc'. simpl in Hc'.
  by destruct (GeoNode.children m' !! k).
Qed.

(** C10.  For two valid entries and a graph with the country node in
    place, the two calls return in either order, and the graph after
    [r1] then [r2] is the graph after [r2] then [r1]: the same nodes under
    the same keys at every level. *)
Theorem add_child_commutes (g : GeoGraph.t) (r1 r2 : GeoEntry.t) :
  GeoEntry.is_valid r1 = true → GeoEntry.is_valid r2 = true →
  is_Some (GeoNode.children (GeoGraph.root g) !! Some GeoGraph.USA) →
  let g1 := (GeoGraph.add_child g r1).2 in
  let g2 := (GeoGraph.add_child g r2).2 in
  (GeoGraph.add_child g r1).1 = Returned ∧ (GeoGraph.add_child g1 r2).1 = Returned
  ∧ (GeoGraph.add_child g r2).1 = Returned ∧ (GeoGraph.add_child g2 r1).1 = Returned
  ∧ (GeoGraph.add_child g1 r2).2 = (GeoGraph.add_child g2 r1).2.
Proof.
  intros H1 H2 [c Hc]. simpl.
  rewrite !add_child_result, H1, H2, Hc.
  rewrite (add_child_country g r1 c H1 Hc), (add_child_country g r2 c H2 Hc).
  do 4 (split; [done|]).
  rewrite !add_child_graph, H1, H2. f_equal.
  change (GeoGraph.root (GeoGraph.mk ?r)) with r.
  rewrite !update_at_compose. apply update_at_ext. intros x.
  apply descend_comm.
Qed.

(** ** Labels, and the nodes that a call adds *)

Section added.
Implicit Types (g : GeoGraph.t) (e : GeoEntry.t) (c n m : GeoNode.t).
Implicit Types (p q ls : list (option string)) (k l : option string).

Lemma labels_ok_children n k c :
  labels_ok n → GeoNode.children n !! k = Some c → GeoNode.label c = k ∧ labels_ok c.
Proof. intros [n' H] Hc. by apply (H k). Qed.

Lemma labels_ok_new l ty : labels_ok (GeoNode.new l ty).
Proof. constructor. intros k c Hc. simpl in Hc. by rewrite lookup_empty in Hc. Qed.

Lemma labels_ok_descend tys ls n : labels_ok n → labels_ok (descend tys ls n).
Proof.
  revert ls n. induction tys as [|ty tys IH]; intros ls n Hn; [done|].
  destruct ls as [|l ls]; [done|].
  rewrite descend_step. constructor. intros k c Hk. simpl in Hk.
  destruct (decide (k = l)) as [->|Hne].
  - rewrite lookup_insert_eq in Hk. injection Hk as <-. rewrite descend_label.
    unfold child_for. destruct (GeoNode.children n !! l) as [c|] eqn:Hl; simpl.
    + destruct (labels_ok_children n l c Hn Hl) as [Hlab Hc]. split; [done|by apply IH].
    + split; [done|]. apply IH, labels_ok_new.
  - rewrite lookup_insert_ne in Hk by done. exact (labels_ok_children n k c Hn Hk).
Qed.

Lemma labels_ok_node_at p k n m :
  labels_ok n → GeoNode.node_at (p ++ [k]) n = Some m → GeoNode.label m = k.
Proof.
  revert n. induction p as [|k' p IH]; intros n Hn Hm; simpl in Hm.
  - destruct (GeoNode.children n !! k) as [c|] eqn:Hk; [|done].
    injection Hm as <-. by destruct (labels_ok_children n k c Hn Hk).
  - destruct (GeoNode.children n !! k') as [c|] eqn:Hk; [|done].
    apply (IH c); [|done]. by destruct (labels_ok_children n k' c Hn Hk).
Qed.

Lemma labels_ok_init : labels_ok (GeoGraph.root Main.g).
Proof.
  constructor. intros k c Hc. unfold Main.g in Hc. simpl in Hc.
  apply lookup_insert_Some in Hc as [[<- <-]|[_ Hc]]; [|by rewrite lookup_empty in Hc].
  split; [done|apply labels_ok_new].
Qed.

Lemma labels_ok_add_child g e :
  labels_ok (GeoGraph.root g) → labels_ok (GeoGraph.root (GeoGraph.add_child g e).2).
Proof.
  intros Hg. rewrite add_child_root. destruct (GeoEntry.is_valid e); [|done].
  destruct (GeoNode.children (GeoGraph.root g) !! Some GeoGraph.USA) as [c|] eqn:Hc.
  2:{ by rewrite update_at_missing. }
  rewrite (update_at_lookup _ _ _ c Hc). constructor. intros k c' Hk.
  change (<[Some GeoGraph.USA := descend lower_types (labels e) c]>
            (GeoNode.children (GeoGraph.root g)) !! k = Some c') in Hk.
  destruct (labels_ok_children _ _ c Hg Hc) as [Hlab Hc'].
  destruct (decide (k = Some GeoGraph.USA)) as [->|Hne].
  - rewrite lookup_insert_eq in Hk. injection Hk as <-. rewrite descend_label.
    split; [done|by apply labels_ok_descend].
  - rewrite lookup_insert_ne in Hk by done.
    exact (labels_ok_children (GeoGraph.root g) k c' Hg Hk).
Qed.

Lemma labels_ok_add_children g es :
  labels_ok (GeoGraph.root g) → labels_ok (GeoGraph.root (add_children g es)).
Proof.
  revert g. induction es as [|e es IH]; intros g Hg; [done|].
  apply IH. by apply labels_ok_add_child.
Qed.

Lemma take_prefix_of {A} i (l : list A) : take i l `prefix_of` l.
Proof. exists (drop i l). by rewrite take_drop. Qed.

Lemma prefix_of_take {A} (q l : list A) : q `prefix_of` l → q = take (length q) l.
Proof. intros [k ->]. by rewrite take_app_length. Qed.

Lemma node_at_prefix p q n m :
  GeoNode.node_at (p ++ q) n = Some m → is_Some (GeoNode.node_at p n).
Proof. rewrite node_at_app. by destruct (GeoNode.node_at p n). Qed.

(** A node that is in the tree after a call on a valid entry and was not
    in it before lies on the path of the entry's labels below the country
    node; its type and its label are those of its depth. *)
Lemma new_node_add_child g e c q m :
  GeoEntry.is_valid e = true →
  GeoNode.children (GeoGraph.root g) !! Some GeoGraph.USA = Some c →
  GeoNode.node_at q (GeoGraph.root (GeoGraph.add_child g e).2) = Some m →
  GeoNode.node_at q (GeoGraph.root g) = None →
  ∃ i, q = Some GeoGraph.USA :: take (S i) (labels e) ∧ i < length (labels e)
       ∧ lower_types !! i = Some (GeoNode.node_type m)
       ∧ labels e !! i = Some (GeoNode.label m).
Proof.
  intros He Hc Hm Hq. rewrite (add_child_root_seeded g e c He Hc) in Hm.
  destruct q as [|k q]; [done|].
  change (match <[Some GeoGraph.USA := descend lower_types (labels e) c]>
                  (GeoNode.children (GeoGraph.root g)) !! k with
          | Some c' => GeoNode.node_at q c' | None => None end = Some m) in Hm.
  change (match GeoNode.children (GeoGraph.root g) !! k with
          | Some c' => GeoNode.node_at q c' | None => None end = None) in Hq.
  destruct (decide (k = Some GeoGraph.USA)) as [->|Hne].
  - rewrite lookup_insert_eq in Hm. rewrite Hc in Hq.
    destruct (new_node_descend _ _ _ _ _ Hm Hq) as (i & -> & Hi).
    by exists i.
  - rewrite lookup_insert_ne in Hm by done. congruence.
Qed.

(** The node at the end of the first [S (length ls0)] labels of a valid
    entry, after the call. *)
Lemma node_at_add_child g e c ls0 l ls1 tys0 ty tys1 :
  GeoEntry.is_valid e = true →
  GeoNode.children (GeoGraph.root g) !! Some GeoGraph.USA = Some c →
  labels e = ls0 ++ l :: ls1 → lower_types = tys0 ++ ty :: tys1 →
  length tys0 = length ls0 →
  GeoNode.node_at (Some GeoGraph.USA :: ls0 ++ [l])
    (GeoGraph.root (GeoGraph.add_child g e).2)
  = Some (descend tys1 ls1
            (default (GeoNode.new l ty)
               (GeoNode.node_at (Some GeoGraph.USA :: ls0 ++ [l]) (GeoGraph.root g)))).
Proof.
  intros He Hc Hls Htys Hlen.
  change (GeoNode.node_at (Some GeoGraph.USA :: ls0 ++ [l]) (GeoGraph.root g))
    with (match GeoNode.children (GeoGraph.root g) !! Some GeoGraph.USA with
          | Some c' => GeoNode.node_at (ls0 ++ [l]) c' | None => None end).
  rewrite Hc, <- (node_at_descend ls0 l tys0 ty tys1 ls1 c Hlen), <- Hls, <- Htys.
  change (GeoNode.node_at (Some GeoGraph.USA :: ls0 ++ [l]) ?r)
    with (match GeoNode.children r !! Some GeoGraph.USA with
          | Some c' => GeoNode.node_at (ls0 ++ [l]) c' | None => None end).
  by rewrite (add_child_country g e c He Hc).
Qed.

End added.

(** ** Entries that share their street *)

Section shared.
Context (r ci p s : string).
Implicit Types (g : GeoGraph.t) (e : GeoEntry.t).

Let street_path : list (option string) := [Some r; Some ci; Some p; Some s].

Lemma labels_on_street e :
  on_street r ci p s e → ∃ rest, labels e = street_path ++ rest.
Proof.
  intros (_ & Hr & Hc & Hp & Hs). unfold labels. rewrite Hr, Hc, Hp, Hs.
  by eexists.
Qed.

Lemma only_path_init : only_path (Some GeoGraph.USA :: street_path) (GeoGraph.root Main.g).
Proof.
  intros k c Hc. unfold Main.g in Hc. simpl in Hc.
  apply lookup_insert_Some in Hc as [[<- <-]|[_ Hc]]; [|by rewrite lookup_empty in Hc].
  split; [done|apply only_path_new].
Qed.

Lemma only_path_add_child g e :
  on_street r ci p s e →
  only_path (Some GeoGraph.USA :: street_path) (GeoGraph.root g) →
  only_path (Some GeoGraph.USA :: street_path) (GeoGraph.root (GeoGraph.add_child g e).2).
Proof.
  intros He Hg. destruct (labels_on_street e He) as [rest Hrest].
  destruct He as (He & _). rewrite add_child_root, He.
  destruct (GeoNode.children (GeoGraph.root g) !! Some GeoGraph.USA) as [c|] eqn:Hc.
  2:{ by rewrite update_at_missing. }
  rewrite (update_at_lookup _ _ _ c Hc). intros k c' Hk.
  change (<[Some GeoGraph.USA := descend lower_types (labels e) c]>
            (GeoNode.children (GeoGraph.root g)) !! k = Some c') in Hk.
  destruct (decide (k = Some GeoGraph.USA)) as [->|Hne].
  - rewrite lookup_insert_eq in Hk. injection Hk as <-. split; [done|].
    rewrite Hrest. apply only_path_descend. by destruct (Hg _ _ Hc).
  - rewrite lookup_insert_ne in Hk by done. by destruct (Hg _ _ Hk).
Qed.

Lemma only_path_add_children g es :
  Forall (on_street r ci p s) es →
  only_path (Some GeoGraph.USA :: street_path) (GeoGraph.root g) →
  only_path (Some GeoGraph.USA :: street_path) (GeoGraph.root (add_children g es)).
Proof.
  intros Hes. revert g. induction Hes as [|e es He Hes IH]; intros g Hg; [done|].
  apply IH. by apply only_path_add_child.
Qed.

(** After a call on an entry of the street, the street node is there. *)
Lemma street_node_add_child g e :
  on_street r ci p s e →
  is_Some (GeoNode.children (GeoGraph.root g) !! Some GeoGraph.USA) →
  is_Some (GeoNode.node_at (Some GeoGraph.USA :: street_path)
             (GeoGraph.root (GeoGraph.add_child g e).2)).
Proof.
  intros He [c Hc]. destruct (labels_on_street e He) as [rest Hrest].
  destruct He as (He & _).
  exact (mk_is_Some _ _
           (node_at_add_child g e c [Some r; Some ci; Some p] (Some s) rest
              [REGION; CITY; POSTCODE] STREET [NUMBER; UNIT]
              He Hc Hrest eq_refl eq_refl)).
Qed.

Lemma street_node_add_children es :
  es ≠ [] → Forall (on_street r ci p s) es →
  is_Some (GeoNode.node_at (Some GeoGraph.USA :: street_path)
             (GeoGraph.root (add_children Main.g es))).
Proof.
  intros Hne Hes. destruct (exists_last Hne) as (es0 & e0 & ->).
  apply Forall_app in Hes as [Hes0 He0]. apply Forall_inv in He0.
  rewrite add_children_snoc. apply street_node_add_child; [done|].
  destruct (graph_ok_country (add_children Main.g es0)) as (c & Hc & _); [|by eexists].
  apply graph_ok_add_children, graph_ok_init.
Qed.

End shared.

(** C1.  [_add_child] returns the child that is already stored under the
    label, and leaves the parent as it is.  A second call of [add_child]
    with the same entry ends like the first one and gives the same graph.
    After the calls of [add_child] for a non-empty sequence of valid entries
    with the same region, city, postcode and street, starting from the
    graph that the script sets up, there is exactly one REGION node, one
    CITY node, one POSTCODE node and one STREET node: each one is at the
    path of the shared labels, and carries the shared label.  After any
    sequence of calls, two children of a node that have the same label are
    the same child: no node has two siblings with one label. *)
Theorem add_child_dedup :
  (∀ (parent c : GeoNode.t) (l : option string) (ty : NodeType),
     GeoNode.children parent !! l = Some c →
     GeoGraph._add_child parent l ty = (parent, c))
  ∧ (∀ (g : GeoGraph.t) (e : GeoEntry.t),
       GeoGraph.add_child (GeoGraph.add_child g e).2 e = GeoGraph.add_child g e)
  ∧ (∀ (es : list GeoEntry.t) (r ci p s : string),
       es ≠ [] → Forall (on_street r ci p s) es →
       let root := GeoGraph.root (add_children Main.g es) in
       let path := [Some GeoGraph.USA; Some r; Some ci; Some p; Some s] in
       ∀ ty, ty ∈ [REGION; CITY; POSTCODE; STREET] →
         let here := take (Z.to_nat (GeoNode.value ty)) path in
         (∃ n, GeoNode.node_at here root = Some n
               ∧ GeoNode.node_type n = ty
               ∧ Some (GeoNode.label n) = last here)
         ∧ ∀ q n, GeoNode.node_at q root = Some n → GeoNode.node_type n = ty →
                  q = here)
  ∧ (∀ (es : list GeoEntry.t) (q : list (option string)) (n c1 c2 : GeoNode.t)
       (k1 k2 : option string),
       GeoNode.node_at q (GeoGraph.root (add_children Main.g es)) = Some n →
       GeoNode.children n !! k1 = Some c1 → GeoNode.children n !! k2 = Some c2 →
       GeoNode.label c1 = GeoNode.label c2 → k1 = k2 ∧ c1 = c2).
Proof.
  split; [|split; [|split]]; cycle 3.
  { intros es q n c1 c2 k1 k2 Hn H1 H2 Hlab.
    assert (labels_ok (GeoGraph.root (add_children Main.g es))) as Hok
      by apply labels_ok_add_children, labels_ok_init.
    assert (GeoNode.label c1 = k1) as Hk1.
    { apply (labels_ok_node_at q k1 _ c1 Hok). rewrite node_at_app, Hn. simpl.
      by rewrite H1. }
    assert (GeoNode.label c2 = k2) as Hk2.
    { apply (labels_ok_node_at q k2 _ c2 Hok). rewrite node_at_app, Hn. simpl.
      by rewrite H2. }
    assert (k1 = k2) as -> by congruence. split; [done|congruence]. }
  - intros parent c l ty Hc. by apply _add_child_found.
  - intros g e. apply injective_projections.
    + rewrite !add_child_result. destruct (GeoEntry.is_valid e) eqn:He; [|done].
      destruct (GeoNode.children (GeoGraph.root g) !! Some GeoGraph.USA) as [c|] eqn:Hc.
      * by rewrite (add_child_country g e c He Hc).
      * rewrite add_child_root, He, update_at_missing by done. by rewrite Hc.
    + rewrite (add_child_graph (GeoGraph.add_child g e).2), add_child_root.
      rewrite add_child_graph. destruct (GeoEntry.is_valid e); [|done].
      f_equal. rewrite update_at_compose. apply update_at_ext. intros x.
      apply descend_idempotent.
  - intros es r ci p s Hne Hes root path ty Hty here.
    assert (graph_ok (add_children Main.g es)) as Hok
      by apply graph_ok_add_children, graph_ok_init.
    assert (labels_ok root) as Hlab by apply labels_ok_add_children, labels_ok_init.
    assert (only_path path root) as Honly
      by (by apply only_path_add_children; [|apply only_path_init]).
    assert (is_Some (GeoNode.node_at path root)) as Hstreet
      by (by apply street_node_add_children).
    destruct Hok as (Hl & Hroot & _).
    assert (∀ q n, GeoNode.node_at q root = Some n →
              Z.of_nat (length q) = GeoNode.value (GeoNode.node_type n)) as Hdepth.
    { intros q n Hn. pose proof (levels_ok_depth q _ n Hl Hn) as Hd.
      rewrite Hroot in Hd. simpl in Hd. lia. }
    split.
    + assert (is_Some (GeoNode.node_at here root)) as [n Hn].
      { destruct Hstreet as [m Hm].
        apply (node_at_prefix here (drop (Z.to_nat (GeoNode.value ty)) path) root m).
        unfold here. by rewrite take_drop. }
      exists n. split; [done|]. pose proof (Hdepth here n Hn) as Hd.
      rewrite !elem_of_cons, elem_of_nil in Hty.
      destruct Hty as [->|[->|[->|[->|[]]]]]; simpl in Hd;
        (split; [by destruct (GeoNode.node_type n)|]); unfold here; simpl; f_equal.
      * apply (labels_ok_node_at [Some GeoGraph.USA] (Some r) root n Hlab Hn).
      * apply (labels_ok_node_at [Some GeoGraph.USA; Some r] (Some ci) root n Hlab Hn).
      * apply (labels_ok_node_at [Some GeoGraph.USA; Some r; Some ci] (Some p)
                 root n Hlab Hn).
      * apply (labels_ok_node_at [Some GeoGraph.USA; Some r; Some ci; Some p] (Some s)
                 root n Hlab Hn).
    + intros q n Hn Hnty. pose proof (Hdepth q n Hn) as Hd. rewrite Hnty in Hd.
      assert (length q ≤ length path) as Hlen.
      { rewrite !elem_of_cons, elem_of_nil in Hty.
        destruct Hty as [->|[->|[->|[->|[]]]]]; simpl in *; lia. }
      pose proof (only_path_node_at path q root n Honly Hn Hlen) as Hpre.
      apply prefix_of_take in Hpre. rewrite Hpre. unfold here. f_equal. lia.
Qed.

(** C4.  For a valid entry and a graph with the country node in place:
    - when the number is missing, [add_child] returns after four calls of
      [_add_child]; the STREET node of the entry is the one that was there,
      with the children it had, or a new one without children; and every
      node that the call added is on the path to that STREET node and is a
      REGION, CITY, POSTCODE or STREET node: no NUMBER node and no UNIT
      node is created;
    - when the number is there and the unit is missing, [add_child] returns
      after five calls; the NUMBER node of the entry is the one that was
      there, as it was, or a new one without children; and every node that
      the call added is on the path to that NUMBER node and is not a UNIT
      node. *)
Theorem add_child_early_exit (g : GeoGraph.t) (e : GeoEntry.t) (c : GeoNode.t) :
  GeoEntry.is_valid e = true →
  GeoNode.children (GeoGraph.root g) !! Some GeoGraph.USA = Some c →
  let root' := GeoGraph.root (GeoGraph.add_child g e).2 in
  let street := [Some GeoGraph.USA; GeoEntry.region e; GeoEntry.city e;
                 GeoEntry.postcode e; GeoEntry.street e] in
  let number := street ++ [GeoEntry.number e] in
  (GeoEntry.number e = None →
     (GeoGraph.add_child g e).1 = Returned
     ∧ GeoGraph.calls (frame_of (GeoGraph.add_child_run g e)) = 4
     ∧ GeoNode.node_at street root'
       = Some (default (GeoNode.new (GeoEntry.street e) STREET)
                 (GeoNode.node_at street (GeoGraph.root g)))
     ∧ ∀ q m, GeoNode.node_at q root' = Some m →
              GeoNode.node_at q (GeoGraph.root g) = None →
              q `prefix_of` street
              ∧ GeoNode.node_type m ∈ [REGION; CITY; POSTCODE; STREET])
  ∧ (is_Some (GeoEntry.number e) → GeoEntry.unit e = None →
     (GeoGraph.add_child g e).1 = Returned
     ∧ GeoGraph.calls (frame_of (GeoGraph.add_child_run g e)) = 5
     ∧ GeoNode.node_at number root'
       = Some (default (GeoNode.new (GeoEntry.number e) NUMBER)
                 (GeoNode.node_at number (GeoGraph.root g)))
     ∧ ∀ q m, GeoNode.node_at q root' = Some m →
              GeoNode.node_at q (GeoGraph.root g) = None →
              q `prefix_of` number
              ∧ GeoNode.node_type m ∈ [REGION; CITY; POSTCODE; STREET; NUMBER]).
Proof.
  intros He Hc root' street number. split.
  - intros Hnum.
    assert (labels e = [GeoEntry.region e; GeoEntry.city e; GeoEntry.postcode e;
                        GeoEntry.street e]) as Hls
      by (unfold labels; by rewrite Hnum).
    split; [by rewrite add_child_result, He, Hc|].
    split; [rewrite (add_child_run_seeded g e c He Hc), Hls; by case_decide|].
    split.
    + exact (node_at_add_child g e c
               [GeoEntry.region e; GeoEntry.city e; GeoEntry.postcode e]
               (GeoEntry.street e) [] [REGION; CITY; POSTCODE] STREET [NUMBER; UNIT]
               He Hc Hls eq_refl eq_refl).
    + intros q m Hm Hq.
      destruct (new_node_add_child g e c q m He Hc Hm Hq) as (i & -> & Hi & Hty & _).
      rewrite Hls in Hi |- *. split.
      * apply prefix_cons, take_prefix_of.
      * simpl in Hi. do 4 (destruct i as [|i]; [injection Hty as <-; set_solver|]). lia.
  - intros [n Hnum] Hunit.
    assert (labels e = [GeoEntry.region e; GeoEntry.city e; GeoEntry.postcode e;
                        GeoEntry.street e; GeoEntry.number e]) as Hls
      by (unfold labels; by rewrite Hnum, Hunit).
    split; [by rewrite add_child_result, He, Hc|].
    split; [rewrite (add_child_run_seeded g e c He Hc), Hls; by case_decide|].
    split.
    + exact (node_at_add_child g e c
               [GeoEntry.region e; GeoEntry.city e; GeoEntry.postcode e; GeoEntry.street e]
               (GeoEntry.number e) [] [REGION; CITY; POSTCODE; STREET] NUMBER [UNIT]
               He Hc Hls eq_refl eq_refl).
    + intros q m Hm Hq.
      destruct (new_node_add_child g e c q m He Hc Hm Hq) as (i & -> & Hi & Hty & _).
      rewrite Hls in Hi |- *. split.
      * apply prefix_cons, take_prefix_of.
      * simpl in Hi. do 5 (destruct i as [|i]; [injection Hty as <-; set_solver|]). lia.
Qed.

(** ** The loop as a sequence of visits *)

Section trace.
Implicit Types (g : GeoGraph.t) (e : GeoEntry.t) (f : GeoGraph.frame).

(** One iteration leaves the list of visited members alone and makes at
    most one call of [_add_child]. *)
Lemma body_observers e ty f :
  GeoGraph.visited (frame_of (GeoGraph.body e ty f)) = GeoGraph.visited f
  ∧ GeoGraph.calls (frame_of (GeoGraph.body e ty f)) ≤ S (GeoGraph.calls f).
Proof.
  destruct ty; simpl; unfold GeoGraph.call_add_child;
    repeat match goal with
           | |- context [match ?x with _ => _ end] => destruct x
           end; simpl; split; (done || lia).
Qed.

(** The loop visits a prefix of the members it is given, in their order,
    and makes at most one call of [_add_child] per visit. *)
Lemma for_node_type_observers todo e f :
  ∃ k, k ≤ length todo
       ∧ GeoGraph.visited (frame_of (GeoGraph.for_node_type todo e f))
         = GeoGraph.visited f ++ take k todo
       ∧ GeoGraph.calls (frame_of (GeoGraph.for_node_type todo e f))
         ≤ GeoGraph.calls f + k.
Proof.
  revert f. induction todo as [|ty todo IH]; intros f.
  { exists 0. simpl. rewrite app_nil_r. split; [done|]. split; [done|lia]. }
  simpl GeoGraph.for_node_type.
  destruct (body_observers e ty (GeoGraph.visit f ty)) as [Hv Hc].
  destruct (GeoGraph.body e ty (GeoGraph.visit f ty)) as [f'|f'|x f'] eqn:Hb;
    simpl in Hv, Hc.
  - destruct (IH f') as (k & Hk & Hv' & Hc'). exists (S k).
    split; [simpl; lia|]. split.
    + rewrite Hv', Hv. simpl. by rewrite <- app_assoc.
    + lia.
  - exists 1. simpl. rewrite Hv, take_0. split; [lia|]. split; [done|lia].
  - exists 1. simpl. rewrite Hv, take_0. split; [lia|]. split; [done|lia].
Qed.

End trace.

(** C8.  [add_child] is a total function of the graph and the entry: every
    call ends, by a return or by an exception.  The members of the enum
    that the loop has visited when the call ends are the first [k] members
    for some [k], at most the eight of them, each one once and in the order
    of their values, and the call has made at most [k] calls of
    [_add_child]. *)
Theorem add_child_terminates (g : GeoGraph.t) (e : GeoEntry.t) :
  let f := frame_of (GeoGraph.add_child_run g e) in
  (∃ res g', GeoGraph.add_child g e = (res, g') ∧ g' = GeoGraph.mk (GeoGraph.self_root f))
  ∧ (∃ k, k ≤ 8 ∧ GeoGraph.visited f = take k GeoNode.members
          ∧ GeoGraph.calls f ≤ k)
  ∧ (∀ i j a b, i < j → GeoGraph.visited f !! i = Some a →
        GeoGraph.visited f !! j = Some b →
        (GeoNode.value a < GeoNode.value b)%Z)
  ∧ NoDup (GeoGraph.visited f)
  ∧ GeoGraph.calls f ≤ length GeoNode.members.
Proof.
  intros f.
  assert (∃ k, k ≤ 8 ∧ GeoGraph.visited f = take k GeoNode.members
               ∧ GeoGraph.calls f ≤ k) as (k & Hk & Hv & Hc).
  { unfold f, GeoGraph.add_child_run. destruct (negb (GeoEntry.is_valid e)).
    - exists 0. simpl. split; [lia|done].
    - destruct (for_node_type_observers GeoNode.members e (GeoGraph.enter g))
        as (k & Hk & Hv & Hc).
      exists k. simpl in *. done. }
  assert (∀ i a, GeoGraph.visited f !! i = Some a → GeoNode.value a = Z.of_nat i) as Hval.
  { intros i a Ha. rewrite Hv in Ha. apply lookup_take_Some in Ha as [Ha _].
    by apply members_value. }
  split; [|split; [by exists k|split; [|split]]].
  - unfold GeoGraph.add_child. fold f.
    destruct (GeoGraph.add_child_run g e); by do 2 eexists.
  - intros i j a b Hij Ha Hb. rewrite (Hval i a Ha), (Hval j b Hb). lia.
  - apply NoDup_alt. intros i j a Ha Hb.
    pose proof (Hval i a Ha). pose proof (Hval j a Hb). lia.
  - simpl. lia.
Qed.

(** ** The country node and the reading loop *)

Section reading.
Implicit Types (g : GeoGraph.t) (e : GeoEntry.t) (s : Main.state).

(** The handler of the reading loop catches whatever [add_child] raises:
    the loop always runs to its end. *)
Lemma read_lines_finishes file s : ∃ s', Main.read_lines file s = Main.Finished s'.
Proof.
  revert s. induction file as [|entry file IH]; intros s; simpl; [by eexists|].
  destruct (Main.lines s =? 0)%Z; [by eexists|].
  destruct entry as [properties|]; [|apply IH].
  destruct (GeoGraph.add_child _ _) as [[|x] g']; [apply IH|].
  destruct x; apply IH.
Qed.

End reading.

(** C7, on a graph without the country node and one input line with a valid
    entry: [add_child] raises [KeyError], and the reading loop does not
    abort: it ends normally, with the entry counted in [num_incomplete]. *)
Lemma missing_country_is_counted :
  GeoEntry.is_valid (GeoEntry.from_properties Examples.props_100) = true
  ∧ GeoNode.children (GeoGraph.root Examples.bare) !! Some GeoGraph.USA = None
  ∧ GeoGraph.add_child Examples.bare (GeoEntry.from_properties Examples.props_100)
    = (Raised KeyError, Examples.bare)
  ∧ Main.read_lines [Some Examples.props_100] (Main.start Examples.bare)
    = Main.Finished (Main.mkstate Examples.bare 1 1 99)
  ∧ ¬ aborts (Main.read_lines [Some Examples.props_100] (Main.start Examples.bare)).
Proof.
  assert (Main.read_lines [Some Examples.props_100] (Main.start Examples.bare)
          = Main.Finished (Main.mkstate Examples.bare 1 1 99)) as Hrun
    by (vm_compute; reflexivity).
  split; [vm_compute; reflexivity|]. split; [vm_compute; reflexivity|].
  split; [vm_compute; reflexivity|]. split; [exact Hrun|].
  intros (x & s & Hx). rewrite Hrun in Hx. discriminate Hx.
Qed.

(** C7, as the code has it.  On a graph without the country node,
    [add_child] on a valid entry raises [KeyError], which is not the
    [ValueError] of an entry that is not valid, and leaves the graph as it
    was.  The reading loop handles it like any other exception of
    [add_child]: the line is counted in [num_processed] and in
    [num_incomplete] and the loop goes on with the next line.  The loop
    never ends on an exception of [add_child]. *)
Theorem missing_country_is_caught (g : GeoGraph.t) (e : GeoEntry.t) :
  GeoEntry.is_valid e = true →
  GeoNode.children (GeoGraph.root g) !! Some GeoGraph.USA = None →
  GeoGraph.add_child g e = (Raised KeyError, g)
  ∧ (∀ properties file s,
       GeoEntry.from_properties properties = e → Main.graph s = g →
       Main.lines s ≠ 0%Z →
       Main.read_lines (Some properties :: file) s
       = Main.read_lines file
           (Main.mkstate g (Main.num_incomplete s + 1) (Main.num_processed s + 1)
              (Main.lines s - 1)))
  ∧ (∀ file s, ¬ aborts (Main.read_lines file s)).
Proof.
  intros He Hc.
  assert (GeoGraph.add_child g e = (Raised KeyError, g)) as Hadd.
  { unfold GeoGraph.add_child. rewrite (add_child_run_no_country g e He Hc).
    by destruct g. }
  split; [done|]. split.
  - intros properties file s <- <- Hlines. simpl Main.read_lines.
    apply Z.eqb_neq in Hlines. rewrite Hlines. simpl. by rewrite Hadd.
  - intros file s (x & s' & Hx).
    destruct (read_lines_finishes file s) as [s'' Hs]. congruence.
Qed.

(** ** The theorems at sample data *)

Lemma add_child_dedup_witness :
  [Examples.entry_100; Examples.entry_200] ≠ []
  ∧ Forall (on_street "CA" "San Diego" "92101" "Main St")
      [Examples.entry_100; Examples.entry_200]
  ∧ STREET ∈ [REGION; CITY; POSTCODE; STREET]
  ∧ ∃ n, GeoNode.node_at
           [Some GeoGraph.USA; Some "CA"; Some "San Diego"; Some "92101"; Some "Main St"]
           (GeoGraph.root (add_children Main.g [Examples.entry_100; Examples.entry_200]))
         = Some n
         ∧ GeoNode.node_type n = STREET
         ∧ Some (GeoNode.label n) = Some (Some "Main St").
Proof.
  assert ([Examples.entry_100; Examples.entry_200] ≠ []) as H1 by done.
  assert (Forall (on_street "CA" "San Diego" "92101" "Main St")
            [Examples.entry_100; Examples.entry_200]) as H2
    by (repeat constructor).
  assert (STREET ∈ [REGION; CITY; POSTCODE; STREET]) as H3
    by (do 3 right; left).
  split; [exact H1|]. split; [exact H2|]. split; [exact H3|].
  exact (proj1 (proj1 (proj2 (proj2 add_child_dedup)) _ _ _ _ _ H1 H2 STREET H3)).
Defined.

Lemma add_child_rejects_incomplete_witness :
  GeoEntry.is_valid Examples.entry_no_city = false
  ∧ GeoGraph.add_child Main.g Examples.entry_no_city = (Raised ValueError, Main.g).
Proof.
  split; [reflexivity|].
  apply (add_child_rejects_incomplete Main.g Examples.entry_no_city). reflexivity.
Defined.

Lemma add_child_middle_levels_witness :
  GeoEntry.is_valid Examples.entry_100 = true
  ∧ GeoNode.children (GeoGraph.root Main.g) !! Some GeoGraph.USA = Some Main.country_node
  ∧ GeoGraph.add_child_run Main.g Examples.entry_100
    = GeoGraph.for_node_type [NUMBER; UNIT] Examples.entry_100
        (GeoGraph.mkframe
           (walk [Some GeoGraph.USA] [REGION; CITY; POSTCODE; STREET]
              [Some "CA"; Some "San Diego"; Some "92101"; Some "Main St"]
              (GeoGraph.root Main.g))
           (Some [Some GeoGraph.USA; Some "CA"; Some "San Diego"; Some "92101";
                  Some "Main St"])
           [PLANET; COUNTRY; REGION; CITY; POSTCODE; STREET] 4).
Proof.
  assert (GeoEntry.is_valid Examples.entry_100 = true) as H1 by reflexivity.
  assert (GeoNode.children (GeoGraph.root Main.g) !! Some GeoGraph.USA
          = Some Main.country_node) as H2 by (vm_compute; reflexivity).
  split; [exact H1|]. split; [exact H2|].
  exact (proj1 (proj2 (add_child_middle_levels Main.g Examples.entry_100
                         Main.country_node H1 H2))).
Defined.

Lemma add_child_early_exit_witness :
  GeoEntry.is_valid Examples.entry_street_only = true
  ∧ GeoNode.children (GeoGraph.root Main.g) !! Some GeoGraph.USA = Some Main.country_node
  ∧ GeoEntry.number Examples.entry_street_only = None
  ∧ (GeoGraph.add_child Main.g Examples.entry_street_only).1 = Returned
  ∧ GeoGraph.calls (frame_of (GeoGraph.add_child_run Main.g Examples.entry_street_only)) = 4.
Proof.
  assert (GeoEntry.is_valid Examples.entry_street_only = true) as H1 by reflexivity.
  assert (GeoNode.children (GeoGraph.root Main.g) !! Some GeoGraph.USA
          = Some Main.country_node) as H2 by (vm_compute; reflexivity).
  assert (GeoEntry.number Examples.entry_street_only = None) as H3 by reflexivity.
  split; [exact H1|]. split; [exact H2|]. split; [exact H3|].
  destruct (proj1 (add_child_early_exit Main.g Examples.entry_street_only
                     Main.country_node H1 H2) H3) as (Hret & Hcalls & _).
  split; [exact Hret|exact Hcalls].
Defined.

Lemma from_properties_contract_witness :
  ("unit", GeoEntry.unit (GeoEntry.from_properties Examples.props_100)) ∈
    [("region", GeoEntry.region (GeoEntry.from_properties Examples.props_100));
     ("postcode", GeoEntry.postcode (GeoEntry.from_properties Examples.props_100));
     ("city", GeoEntry.city (GeoEntry.from_properties Examples.props_100));
     ("street", GeoEntry.street (GeoEntry.from_properties Examples.props_100));
     ("number", GeoEntry.number (GeoEntry.from_properties Examples.props_100));
     ("unit", GeoEntry.unit (GeoEntry.from_properties Examples.props_100))]
  ∧ (GeoEntry.unit (GeoEntry.from_properties Examples.props_100) = None ↔
       Examples.props_100 !! "unit" = None
       ∨ ∃ raw, Examples.props_100 !! "unit" = Some raw ∧ Str.strip raw = EmptyString).
Proof.
  assert (("unit", GeoEntry.unit (GeoEntry.from_properties Examples.props_100)) ∈
    [("region", GeoEntry.region (GeoEntry.from_properties Examples.props_100));
     ("postcode", GeoEntry.postcode (GeoEntry.from_properties Examples.props_100));
     ("city", GeoEntry.city (GeoEntry.from_properties Examples.props_100));
     ("street", GeoEntry.street (GeoEntry.from_properties Examples.props_100));
     ("number", GeoEntry.number (GeoEntry.from_properties Examples.props_100));
     ("unit", GeoEntry.unit (GeoEntry.from_properties Examples.props_100))]) as H1
    by (do 5 right; left).
  split; [exact H1|].
  exact (proj1 (proj2 (from_properties_contract Examples.props_100 "unit" _ H1))).
Defined.

Lemma missing_country_is_caught_witness :
  GeoEntry.is_valid Examples.entry_100 = true
  ∧ GeoNode.children (GeoGraph.root Examples.bare) !! Some GeoGraph.USA = None
  ∧ GeoGraph.add_child Examples.bare Examples.entry_100 = (Raised KeyError, Examples.bare).
Proof.
  assert (GeoEntry.is_valid Examples.entry_100 = true) as H1 by reflexivity.
  assert (GeoNode.children (GeoGraph.root Examples.bare) !! Some GeoGraph.USA = None)
    as H2 by reflexivity.
  split; [exact H1|]. split; [exact H2|].
  exact (proj1 (missing_country_is_caught Examples.bare Examples.entry_100 H1 H2)).
Defined.

Lemma add_child_monotone_witness :
  GeoNode.node_at [Some GeoGraph.USA] (GeoGraph.root Main.g) = Some Main.country_node
  ∧ ∃ m', GeoNode.node_at [Some GeoGraph.USA]
            (GeoGraph.root (GeoGraph.add_child Main.g Examples.entry_100).2) = Some m'
          ∧ GeoNode.label m' = GeoNode.label Main.country_node
          ∧ GeoNode.node_type m' = GeoNode.node_type Main.country_node
          ∧ dom (GeoNode.children Main.country_node) ⊆ dom (GeoNode.children m').
Proof.
  assert (GeoNode.node_at [Some GeoGraph.USA] (GeoGraph.root Main.g)
          = Some Main.country_node) as H1 by (vm_compute; reflexivity).
  split; [exact H1|].
  destruct (add_child_monotone Main.g Examples.entry_100 [Some GeoGraph.USA]
              Main.country_node H1) as (m' & Hm' & Hlab & Hty & Hdom & _).
  exists m'. split; [exact Hm'|]. split; [exact Hlab|]. split; [exact Hty|exact Hdom].
Defined.

Lemma add_child_commutes_witness :
  GeoEntry.is_valid Examples.entry_100 = true
  ∧ GeoEntry.is_valid Examples.entry_200 = true
  ∧ is_Some (GeoNode.children (GeoGraph.root Main.g) !! Some GeoGraph.USA)
  ∧ (GeoGraph.add_child (GeoGraph.add_child Main.g Examples.entry_100).2
       Examples.entry_200).2
    = (GeoGraph.add_child (GeoGraph.add_child Main.g Examples.entry_200).2
         Examples.entry_100).2.
Proof.
  assert (GeoEntry.is_valid Examples.entry_100 = true) as H1 by reflexivity.
  assert (GeoEntry.is_valid Examples.entry_200 = true) as H2 by reflexivity.
  assert (is_Some (GeoNode.children (GeoGraph.root Main.g) !! Some GeoGraph.USA)) as H3
    by (exists Main.country_node; vm_compute; reflexivity).
  split; [exact H1|]. split; [exact H2|]. split; [exact H3|].
  exact (proj2 (proj2 (proj2 (proj2
           (add_child_commutes Main.g Examples.entry_100 Examples.entry_200 H1 H2 H3))))).
Defined.

(** ** The examples of the specification, evaluated *)

(** Two entries on the same street with the numbers 100 and 200: the STREET
    node has the two NUMBER children, in either order of the calls. *)
Example main_st_two_numbers :
  (dom ∘ GeoNode.children) <$>
    GeoNode.node_at
      [Some GeoGraph.USA; Some "CA"; Some "San Diego"; Some "92101"; Some "Main St"]
      (GeoGraph.root (add_children Main.g [Examples.entry_100; Examples.entry_200]))
  = Some {[Some "100"; Some "200"]}
  ∧ add_children Main.g [Examples.entry_100; Examples.entry_200]
    = add_children Main.g [Examples.entry_200; Examples.entry_100].
Proof. split; vm_compute; reflexivity. Qed.

(** An entry without a city: the call raises, the line is counted as
    processed and as incomplete, and the graph is the one of the start. *)
Example no_city_is_skipped :
  GeoGraph.add_child Main.g Examples.entry_no_city = (Raised ValueError, Main.g)
  ∧ Main.read_lines [Some (delete "city" Examples.props_100)] (Main.start Main.g)
    = Main.Finished (Main.mkstate Main.g 1 1 99).
Proof. split; vm_compute; reflexivity. Qed.

(** The stripped fields of a line, an empty unit being no unit. *)
Example from_properties_sample :
  GeoEntry.from_properties Examples.props_100 = Examples.entry_100
  ∧ Str.strip "  Main St  " = "Main St".
Proof. split; vm_compute; reflexivity. Qed.

(** The loop stops after a hundred lines. *)
Example hundred_lines :
  Main.read_lines (replicate 101 (Some Examples.props_100)) (Main.start Main.g)
  = Main.read_lines (replicate 100 (Some Examples.props_100)) (Main.start Main.g)
  ∧ ∃ g', Main.read_lines (replicate 101 (Some Examples.props_100)) (Main.start Main.g)
          = Main.Finished (Main.mkstate g' 0 100 0).
Proof. split; [|eexists]; vm_compute; reflexivity. Qed.

(** * Further properties *)

(** ** Sequences of calls *)

Section sequences.
Implicit Types (g : GeoGraph.t) (e : GeoEntry.t) (es : list GeoEntry.t).

Lemma add_children_cons g e es :
  add_children g (e :: es) = add_children (GeoGraph.add_child g e).2 es.
Proof. done. Qed.

Lemma add_children_app g es1 es2 :
  add_children g (es1 ++ es2) = add_children (add_children g es1) es2.
Proof. unfold add_children. by rewrite foldl_app. Qed.

Lemma add_child_twice g e :
  (GeoGraph.add_child (GeoGraph.add_child g e).2 e).2 = (GeoGraph.add_child g e).2.
Proof.
  rewrite (add_child_graph (GeoGraph.add_child g e).2), add_child_root.
  rewrite add_child_graph. destruct (GeoEntry.is_valid e); [|done].
  f_equal. rewrite update_at_compose. apply update_at_ext. intros x.
  apply descend_idempotent.
Qed.

Lemma add_child_swap g e1 e2 :
  (GeoGraph.add_child (GeoGraph.add_child g e1).2 e2).2
  = (GeoGraph.add_child (GeoGraph.add_child g e2).2 e1).2.
Proof.
  rewrite (add_child_graph (GeoGraph.add_child g e1).2).
  rewrite (add_child_graph (GeoGraph.add_child g e2).2).
  rewrite !add_child_root.
  destruct (GeoEntry.is_valid e1), (GeoEntry.is_valid e2); try done.
  f_equal. rewrite !update_at_compose. apply update_at_ext. intros x.
  apply descend_comm.
Qed.

Lemma add_child_not_valid g e :
  GeoEntry.is_valid e = false → (GeoGraph.add_child g e).2 = g.
Proof. intros He. rewrite add_child_graph, He. by destruct g. Qed.

Lemma add_children_Permutation g es es' :
  es ≡ₚ es' → add_children g es = add_children g es'.
Proof.
  intros Hp. revert g. induction Hp as [|e es es' _ IH|e1 e2 es|es1 es2 es3 _ IH1 _ IH2];
    intros g.
  - done.
  - rewrite !add_children_cons. apply IH.
  - rewrite !add_children_cons. by rewrite add_child_swap.
  - by rewrite IH1.
Qed.

Lemma add_children_again g e es :
  e ∈ es → add_children g (e :: es) = add_children g es.
Proof.
  intros He. apply elem_of_Permutation in He as [es' Hes'].
  rewrite (add_children_Permutation g (e :: es) (e :: e :: es')) by by rewrite Hes'.
  rewrite (add_children_Permutation g es (e :: es')) by done.
  rewrite !add_children_cons. by rewrite add_child_twice.
Qed.

Lemma add_children_remove_dups g es :
  add_children g (remove_dups es) = add_children g es.
Proof.
  revert g. induction es as [|e es IH]; intros g; [done|].
  simpl remove_dups. destruct (decide_rel _ e es) as [He|He].
  - by rewrite IH, add_children_again.
  - rewrite !add_children_cons. apply IH.
Qed.

End sequences.

(** X1.  The graph after a sequence of calls depends on the set of entries
    only: two sequences with the same elements, in whatever order and with
    whatever repetitions, give the same graph from the same start. *)
Theorem add_children_same_elements (g : GeoGraph.t) (es es' : list GeoEntry.t) :
  (∀ e, e ∈ es ↔ e ∈ es') → add_children g es = add_children g es'.
Proof.
  intros Hsame.
  rewrite <- (add_children_remove_dups g es), <- (add_children_remove_dups g es').
  apply add_children_Permutation.
  apply NoDup_Permutation; [apply NoDup_remove_dups..|].
  intros e. by rewrite !elem_of_remove_dups.
Qed.

(** X2.  The entries that are not valid have no part in the graph: the
    calls for a sequence give the graph of the calls for its valid
    entries. *)
Theorem add_children_valid_only (g : GeoGraph.t) (es : list GeoEntry.t) :
  add_children g es
  = add_children g (filter (λ e, GeoEntry.is_valid e = true) es).
Proof.
  revert g. induction es as [|e es IH]; intros g; [done|].
  rewrite add_children_cons.
  destruct (GeoEntry.is_valid e) eqn:He.
  - rewrite filter_cons_True by done. rewrite add_children_cons. apply IH.
  - rewrite filter_cons_False by congruence.
    rewrite add_child_not_valid by done. apply IH.
Qed.

(** ** What a call leaves alone, and what it leaves behind *)

Section frame.
Implicit Types (g : GeoGraph.t) (e : GeoEntry.t) (es : list GeoEntry.t).
Implicit Types (n m : GeoNode.t) (p q ls : list (option string)).

(** Off the path of its labels a descent changes nothing. *)
Lemma descend_frame tys ls n q :
  ¬ q `prefix_of` ls →
  GeoNode.node_at q (descend tys ls n) = GeoNode.node_at q n.
Proof.
  revert ls n q. induction tys as [|ty tys IH]; intros ls n q Hq; [done|].
  destruct ls as [|l ls]; [done|].
  destruct q as [|k q]; [destruct Hq; apply prefix_nil|].
  rewrite descend_step.
  change (match <[l := descend tys ls (child_for l ty n)]> (GeoNode.children n) !! k with
          | Some c => GeoNode.node_at q c | None => None end
          = match GeoNode.children n !! k with
            | Some c => GeoNode.node_at q c | None => None end).
  destruct (decide (k = l)) as [->|Hne]; [|by rewrite lookup_insert_ne].
  rewrite lookup_insert_eq, IH.
  - unfold child_for. destruct (GeoNode.children n !! l) as [c|]; simpl; [done|].
    destruct q as [|k' q]; [|by apply node_at_new_cons].
    destruct Hq. apply prefix_cons, prefix_nil.
  - intros Hq'. apply Hq. by apply prefix_cons.
Qed.

Lemma keeps_trans n1 n2 n3 : keeps n1 n2 → keeps n2 n3 → keeps n1 n3.
Proof.
  intros H12 H23 p m Hm.
  destruct (H12 p m Hm) as (m2 & Hm2 & Hlab2 & Hty2 & Hdom2).
  destruct (H23 p m2 Hm2) as (m3 & Hm3 & Hlab3 & Hty3 & Hdom3).
  exists m3. split; [done|]. split; [congruence|]. split; [congruence|].
  set_solver.
Qed.

Lemma add_children_keeps g es :
  keeps (GeoGraph.root g) (GeoGraph.root (add_children g es)).
Proof.
  revert g. induction es as [|e es IH]; intros g; [apply keeps_refl|].
  rewrite add_children_cons.
  exact (keeps_trans _ _ _ (add_child_keeps g e) (IH _)).
Qed.

Lemma labels_length e : 4 ≤ length (labels e) ≤ 6.
Proof.
  unfold labels. destruct (GeoEntry.number e), (GeoEntry.unit e); simpl; lia.
Qed.

End frame.

(** X3.  A call of [add_child] changes nothing off the path of its entry:
    whatever the graph and the entry, a reference that is not a prefix of
    the path from the root through the country and the entry's labels
    designates after the call what it designated before: the same node
    with the same subtree, or no node. *)
Theorem add_child_frame (g : GeoGraph.t) (e : GeoEntry.t) (q : list (option string)) :
  ¬ q `prefix_of` (Some GeoGraph.USA :: labels e) →
  GeoNode.node_at q (GeoGraph.root (GeoGraph.add_child g e).2)
  = GeoNode.node_at q (GeoGraph.root g).
Proof.
  intros Hq. rewrite add_child_root. destruct (GeoEntry.is_valid e); [|done].
  destruct q as [|k q]; [destruct Hq; apply prefix_nil|].
  destruct (GeoNode.children (GeoGraph.root g) !! Some GeoGraph.USA) as [c|] eqn:Hc.
  2:{ by rewrite update_at_missing. }
  rewrite (update_at_lookup _ _ _ c Hc).
  change (match <[Some GeoGraph.USA := descend lower_types (labels e) c]>
                  (GeoNode.children (GeoGraph.root g)) !! k with
          | Some c' => GeoNode.node_at q c' | None => None end
          = match GeoNode.children (GeoGraph.root g) !! k with
            | Some c' => GeoNode.node_at q c' | None => None end).
  destruct (decide (k = Some GeoGraph.USA)) as [->|Hne]; [|by rewrite lookup_insert_ne].
  rewrite lookup_insert_eq, Hc. apply descend_frame.
  intros Hq'. apply Hq. by apply prefix_cons.
Qed.

(** X4.  What was inserted is found.  After the calls of [add_child] for any
    sequence of entries, starting from the graph that the script sets up,
    the whole path of every valid entry of the sequence is in the tree:
    for each label of the entry there is a node at the end of the labels up
    to it, below the country node; the node carries that label and has the
    type of its level. *)
Theorem add_children_findable (es : list GeoEntry.t) (e : GeoEntry.t)
    (i : nat) (l : option string) :
  e ∈ es → GeoEntry.is_valid e = true → labels e !! i = Some l →
  ∃ n, GeoNode.node_at (Some GeoGraph.USA :: take (S i) (labels e))
         (GeoGraph.root (add_children Main.g es)) = Some n
       ∧ GeoNode.label n = l
       ∧ lower_types !! i = Some (GeoNode.node_type n).
Proof.
  intros Hin He Hl.
  apply list_elem_of_split in Hin as (es1 & es2 & ->).
  pose proof (lookup_lt_Some _ _ _ Hl) as Hi.
  pose proof (labels_length e) as Hlen.
  assert (graph_ok (add_children Main.g es1)) as Hok1
    by apply graph_ok_add_children, graph_ok_init.
  destruct (graph_ok_country _ Hok1) as (c & Hc & _).
  assert (is_Some (lower_types !! i)) as [ty Hty] by (apply lookup_lt_is_Some; simpl; lia).
  (* the node is there right after the call for [e] *)
  assert (is_Some (GeoNode.node_at (Some GeoGraph.USA :: take (S i) (labels e))
                     (GeoGraph.root (GeoGraph.add_child (add_children Main.g es1) e).2)))
    as [n1 Hn1].
  { rewrite (take_S_r _ _ _ Hl).
    eapply mk_is_Some, (node_at_add_child _ e c (take i (labels e)) l
                          (drop (S i) (labels e)) (take i lower_types) ty
                          (drop (S i) lower_types) He Hc).
    - by rewrite take_drop_middle.
    - by rewrite take_drop_middle.
    - rewrite !length_take. change (length lower_types) with 6. lia. }
  (* and the later calls keep it *)
  rewrite add_children_app, add_children_cons.
  destruct (add_children_keeps _ es2 _ _ Hn1) as (n & Hn & _).
  exists n. split; [done|].
  rewrite <- add_children_cons, <- add_children_app in Hn.
  assert (graph_ok (add_children Main.g (es1 ++ e :: es2))) as (Hlev & Hroot & _)
    by apply graph_ok_add_children, graph_ok_init.
  assert (labels_ok (GeoGraph.root (add_children Main.g (es1 ++ e :: es2)))) as Hlab
    by apply labels_ok_add_children, labels_ok_init.
  split.
  - rewrite (take_S_r _ _ _ Hl) in Hn.
    exact (labels_ok_node_at (Some GeoGraph.USA :: take i (labels e)) l _ n Hlab Hn).
  - pose proof (levels_ok_depth _ _ n Hlev Hn) as Hd. rewrite Hroot in Hd.
    cbn [length] in Hd. rewrite length_take in Hd.
    replace (S i `min` length (labels e)) with (S i) in Hd by lia.
    destruct (GeoNode.node_type n); simpl GeoNode.value in Hd; try (exfalso; lia);
      [assert (i = 0) as -> by lia | assert (i = 1) as -> by lia
      |assert (i = 2) as -> by lia | assert (i = 3) as -> by lia
      |assert (i = 4) as -> by lia | assert (i = 5) as -> by lia]; reflexivity.
Qed.

(** ** Fields, once extracted *)

Section clean.
Implicit Types (s v : string) (c : ascii).

Lemma lstrip_fix s :
  (∀ c, Str.first_char s = Some c → Str.isspace c = false) → Str.lstrip s = s.
Proof.
  destruct s as [|a s]; simpl; [done|].
  intros H. by rewrite (H a).
Qed.

Lemma rstrip_empty s : Str.rstrip s = EmptyString ↔ Str.all_space s = true.
Proof.
  induction s as [|a s IH]; simpl; [done|].
  destruct (Str.rstrip s) as [|b r].
  - destruct (Str.isspace a); simpl; [|done].
    split; intros _; [by apply IH|done].
  - split; [done|]. intros [_ Hs]%andb_true_iff. by apply IH in Hs.
Qed.

Lemma rstrip_fix s :
  (∀ c, Str.last_char s = Some c → Str.isspace c = false) → Str.rstrip s = s.
Proof.
  induction s as [|a s IH]; simpl; [done|].
  intros H. destruct s as [|b s].
  - simpl. by rewrite (H a).
  - rewrite IH by done. done.
Qed.

Lemma strip_idempotent s : Str.strip (Str.strip s) = Str.strip s.
Proof.
  destruct (strip_spec s) as (_ & Hfirst & Hlast).
  unfold Str.strip at 1. rewrite (lstrip_fix _ Hfirst). by apply rstrip_fix.
Qed.

Lemma get_entry_strip properties name v :
  GeoEntry.get_entry properties name = Some v → Str.strip v = v ∧ v ≠ EmptyString.
Proof.
  intros (raw & _ & -> & Hne)%get_entry_Some. split; [apply strip_idempotent|done].
Qed.

(** A value that [get_entry] returned is returned as it is wherever it is
    stored. *)
Lemma get_entry_again properties name v properties' name' :
  GeoEntry.get_entry properties name = Some v →
  properties' !! name' = Some v →
  GeoEntry.get_entry properties' name' = Some v.
Proof.
  intros [Hv Hne]%get_entry_strip Hv'. apply get_entry_Some.
  exists v. by rewrite Hv.
Qed.

Lemma get_entry_is_Some properties name :
  is_Some (GeoEntry.get_entry properties name) ↔
  ∃ raw, properties !! name = Some raw ∧ Str.all_space raw = false.
Proof.
  split.
  - intros [v (raw & Hraw & -> & Hne)%get_entry_Some]. exists raw. split; [done|].
    destruct (Str.all_space raw) eqn:Hs; [|done].
    apply strip_empty in Hs. by destruct (Str.strip raw).
  - intros (raw & Hraw & Hs). unfold GeoEntry.get_entry. rewrite Hraw.
    destruct (Str.truthy (Str.strip raw)) eqn:Ht; [by eexists|].
    apply strip_empty in Ht. congruence.
Qed.

End clean.

(** X5.  The entry of a dict is valid exactly when each of the keys region,
    postcode, city and street is in the dict with a value that is not made
    of white space only (the empty string included). *)
Theorem from_properties_valid (properties : gmap string string) :
  GeoEntry.is_valid (GeoEntry.from_properties properties) = true ↔
  ∀ name, name ∈ ["region"; "postcode"; "city"; "street"] →
    ∃ raw, properties !! name = Some raw ∧ Str.all_space raw = false.
Proof.
  rewrite is_valid_true. simpl. rewrite !get_entry_is_Some. split.
  - intros (Hr & Hp & Hc & Hs) name Hname.
    rewrite !elem_of_cons, elem_of_nil in Hname.
    by destruct Hname as [->|[->|[->|[->|[]]]]].
  - intros H. repeat split; apply H; set_solver.
Qed.

(** X6.  Extraction is idempotent: a dict that holds, for each of the six
    field names, the value that [get_entry] extracted from another dict
    (and no entry where it extracted [None]) gives the same entry as that
    other dict.  An extracted value is stripped already, and is not
    empty. *)
Theorem from_properties_idempotent (properties properties' : gmap string string) :
  (∀ name, name ∈ ["region"; "postcode"; "city"; "street"; "number"; "unit"] →
     properties' !! name = GeoEntry.get_entry properties name) →
  GeoEntry.from_properties properties' = GeoEntry.from_properties properties.
Proof.
  intros H.
  assert (∀ name, name ∈ ["region"; "postcode"; "city"; "street"; "number"; "unit"] →
            GeoEntry.get_entry properties' name = GeoEntry.get_entry properties name)
    as Hget.
  { intros name Hname. specialize (H name Hname).
    destruct (GeoEntry.get_entry properties name) as [v|] eqn:Hv.
    - by apply (get_entry_again properties name).
    - unfold GeoEntry.get_entry. by rewrite H. }
  unfold GeoEntry.from_properties. rewrite !Hget by set_solver. done.
Qed.

(** ** The reading loop as a whole *)

Section reading_loop.
Implicit Types (g : GeoGraph.t) (e : GeoEntry.t) (s : Main.state).
Implicit Types (file : list (option (gmap string string))).

Local Arguments Z.of_nat : simpl never.

Lemma add_child_seeded g e :
  is_Some (GeoNode.children (GeoGraph.root (GeoGraph.add_child g e).2) !! Some GeoGraph.USA)
  ↔ is_Some (GeoNode.children (GeoGraph.root g) !! Some GeoGraph.USA).
Proof.
  rewrite add_child_root. destruct (GeoEntry.is_valid e); [|done].
  change (is_Some (alter (GeoNode.update_at [] (descend lower_types (labels e)))
                     (Some GeoGraph.USA) (GeoNode.children (GeoGraph.root g))
                   !! Some GeoGraph.USA)
          ↔ is_Some (GeoNode.children (GeoGraph.root g) !! Some GeoGraph.USA)).
  by rewrite lookup_alter_eq, fmap_is_Some.
Qed.

(** The state in which the loop ends, from a state with [lines] not below
    zero: the graph after the calls for the entries of the lines read, the
    number of these entries added to [num_processed], the number of those
    for which [add_child] raised added to [num_incomplete]. *)
Lemma read_lines_from file s :
  (0 ≤ Main.lines s)%Z →
  let read := take (Z.to_nat (Main.lines s)) file in
  let es := GeoEntry.from_properties <$> omap id read in
  Main.read_lines file s
  = Main.Finished
      (Main.mkstate
         (add_children (Main.graph s) es)
         (Main.num_incomplete s
          + Z.of_nat
              (if decide (is_Some (GeoNode.children (GeoGraph.root (Main.graph s))
                                   !! Some GeoGraph.USA))
               then length (filter (λ e, GeoEntry.is_valid e = false) es)
               else length es))
         (Main.num_processed s + Z.of_nat (length es))
         (Main.lines s - Z.of_nat (length read))).
Proof.
  revert s. induction file as [|entry file IH]; intros s Hlines; simpl.
  { rewrite take_nil. simpl. destruct s; simpl. f_equal. f_equal; [|lia..].
    case_decide; simpl; lia. }
  destruct (Main.lines s =? 0)%Z eqn:H0.
  { apply Z.eqb_eq in H0. rewrite H0. simpl. destruct s; simpl in *. subst.
    f_equal. f_equal; [|lia..]. case_decide; simpl; lia. }
  apply Z.eqb_neq in H0.
  assert (Z.to_nat (Main.lines s) = S (Z.to_nat (Main.lines s - 1))) as Hk by lia.
  rewrite Hk. simpl take.
  destruct entry as [properties|]; csimpl.
  - pose proof (add_child_result (Main.graph s) (GeoEntry.from_properties properties)) as Hres.
    pose proof (add_child_seeded (Main.graph s) (GeoEntry.from_properties properties))
      as Hseed.
    destruct (GeoGraph.add_child (Main.graph s) (GeoEntry.from_properties properties))
      as [res g'] eqn:Hadd.
    simpl in Hres, Hseed.
    assert (g' = (GeoGraph.add_child (Main.graph s)
                    (GeoEntry.from_properties properties)).2) as Hg' by by rewrite Hadd.
    destruct res as [|x].
    + rewrite IH by (simpl; lia). csimpl. rewrite Hg'. f_equal. f_equal; [|lia..].
      destruct (GeoEntry.is_valid (GeoEntry.from_properties properties)) eqn:He; [|done].
      destruct (GeoNode.children (GeoGraph.root (Main.graph s)) !! Some GeoGraph.USA)
        eqn:Hc; [|done].
      rewrite filter_cons_False by congruence.
      rewrite decide_True by (rewrite <- Hg'; apply Hseed; by eexists).
      rewrite decide_True by by eexists. done.
    + assert (is_Exception x = true) as -> by by destruct x.
      rewrite IH by (simpl; lia). csimpl. rewrite Hg'. f_equal. f_equal; [|lia..].
      destruct (GeoEntry.is_valid (GeoEntry.from_properties properties)) eqn:He.
      * destruct (GeoNode.children (GeoGraph.root (Main.graph s)) !! Some GeoGraph.USA)
          eqn:Hc; [done|].
        rewrite decide_False.
        2:{ rewrite <- Hg'. intros Hs. apply Hseed in Hs. by destruct Hs. }
        rewrite decide_False by (by intros []). lia.
      * rewrite filter_cons_True by done.
        destruct (decide (is_Some (GeoNode.children (GeoGraph.root (Main.graph s))
                                   !! Some GeoGraph.USA))) as [Hs|Hs].
        -- rewrite decide_True by (rewrite <- Hg'; by apply Hseed). simpl. lia.
        -- rewrite decide_False by (rewrite <- Hg'; by rewrite Hseed). simpl. lia.
  - rewrite IH by (simpl; lia). csimpl. f_equal. f_equal; lia.
Qed.

Lemma read_lines_graph file g s :
  Main.read_lines file (Main.start g) = Main.Finished s →
  Main.graph s = add_children g (entries_read file).
Proof.
  rewrite (read_lines_from file (Main.start g)) by done. by intros [= <-].
Qed.

Lemma clean_labels properties :
  GeoEntry.is_valid (GeoEntry.from_properties properties) = true →
  Forall clean (labels (GeoEntry.from_properties properties)).
Proof.
  intros (Hr & Hp & Hc & Hs)%is_valid_true. unfold labels. simpl in *.
  assert (∀ name, is_Some (GeoEntry.get_entry properties name) →
            clean (GeoEntry.get_entry properties name)) as Hclean.
  { intros name [v Hv]. exists v. split; [done|]. by apply (get_entry_strip properties name). }
  repeat (apply Forall_cons; split; [by apply Hclean|]).
  destruct (GeoEntry.get_entry properties "number") eqn:Hn; [|constructor].
  apply Forall_cons; split; [rewrite <- Hn; apply Hclean; by rewrite Hn|].
  destruct (GeoEntry.get_entry properties "unit") eqn:Hu; [|constructor].
  apply Forall_cons; split; [rewrite <- Hu; apply Hclean; by rewrite Hu|constructor].
Qed.

(** A call for an entry with clean labels keeps all labels clean. *)
Lemma clean_add_child g e :
  (∀ q n, GeoNode.node_at q (GeoGraph.root g) = Some n → clean (GeoNode.label n)) →
  (GeoEntry.is_valid e = true → Forall clean (labels e)) →
  ∀ q n, GeoNode.node_at q (GeoGraph.root (GeoGraph.add_child g e).2) = Some n →
         clean (GeoNode.label n).
Proof.
  intros Hg He q n Hn.
  destruct (GeoNode.node_at q (GeoGraph.root g)) as [n0|] eqn:Hn0.
  - destruct (add_child_keeps g e q n0 Hn0) as (n' & Hn' & Hlab & _).
    rewrite Hn in Hn'. injection Hn' as <-. rewrite Hlab. by apply (Hg q).
  - destruct (GeoEntry.is_valid e) eqn:Hv.
    2:{ rewrite add_child_root, Hv in Hn. congruence. }
    destruct (GeoNode.children (GeoGraph.root g) !! Some GeoGraph.USA) as [c|] eqn:Hc.
    2:{ rewrite add_child_root, Hv, update_at_missing in Hn by done. congruence. }
    destruct (new_node_add_child g e c q n Hv Hc Hn Hn0) as (i & _ & _ & _ & Hl).
    specialize (He eq_refl). rewrite Forall_lookup in He. by apply (He i).
Qed.

Lemma clean_init q n :
  GeoNode.node_at q (GeoGraph.root Main.g) = Some n → clean (GeoNode.label n).
Proof.
  destruct q as [|k q]; simpl.
  { intros [= <-]. exists "Earth". by vm_compute. }
  unfold Main.g. simpl.
  destruct (decide (k = Some "United States of America")) as [->|Hne].
  - rewrite lookup_insert_eq. destruct q as [|k' q]; simpl.
    + intros [= <-]. exists "United States of America". by vm_compute.
    + by rewrite lookup_empty.
  - rewrite lookup_insert_ne by done. by rewrite lookup_empty.
Qed.

Lemma clean_add_children g es :
  (∀ q n, GeoNode.node_at q (GeoGraph.root g) = Some n → clean (GeoNode.label n)) →
  Forall (λ e, GeoEntry.is_valid e = true → Forall clean (labels e)) es →
  ∀ q n, GeoNode.node_at q (GeoGraph.root (add_children g es)) = Some n →
         clean (GeoNode.label n).
Proof.
  intros Hg Hes. revert g Hg. induction Hes as [|e es He Hes IH]; intros g Hg; [done|].
  rewrite add_children_cons. apply IH. by apply clean_add_child.
Qed.

End reading_loop.


(** X8.  In the graph that the script has built when the reading loop
    ends, whatever the input, no node has the label [None]: every label is
    a string that is not empty and has no white space at either end
    ([strip] leaves it as it is). *)
Theorem read_lines_labels (file : list (option (gmap string string)))
    (s : Main.state) (q : list (option string)) (n : GeoNode.t) :
  Main.read_lines file (Main.start Main.g) = Main.Finished s →
  GeoNode.node_at q (GeoGraph.root (Main.graph s)) = Some n →
  ∃ v, GeoNode.label n = Some v ∧ Str.strip v = v ∧ v ≠ EmptyString
       ∧ (∀ c, Str.first_char v = Some c → Str.isspace c = false)
       ∧ (∀ c, Str.last_char v = Some c → Str.isspace c = false).
Proof.
  intros Hs Hn. rewrite (read_lines_graph file Main.g s Hs) in Hn.
  assert (clean (GeoNode.label n)) as (v & Hv & Hstrip & Hne).
  { apply (clean_add_children Main.g (entries_read file)) with q; [apply clean_init| |done].
    unfold entries_read. apply Forall_fmap, Forall_forall. intros properties _.
    exact (clean_labels properties). }
  exists v. split; [done|]. split; [done|]. split; [done|].
  destruct (strip_spec v) as (_ & Hfirst & Hlast). rewrite Hstrip in Hfirst, Hlast.
  by split.
Qed.

(** ** The breadth-first traversal *)

Lemma size_child n k c :
  GeoNode.children n !! k = Some c → size c < size n.
Proof.
  intros Hc. destruct n as [l ty m]. simpl in *.
  rewrite (map_fold_delete_L _ _ k c m); [lia| |done].
  intros. lia.
Qed.

Lemma node_at_depth p n m :
  GeoNode.node_at p n = Some m → length p < size n.
Proof.
  revert n. induction p as [|k p IH]; intros n Hm; simpl in *.
  - destruct n. simpl. lia.
  - destruct (GeoNode.children n !! k) as [c|] eqn:Hk; [|done].
    pose proof (IH c Hm). pose proof (size_child n k c Hk). lia.
Qed.

Section traversal.
Implicit Types (root n c : GeoNode.t) (p : list (option string)).
Implicit Types (it : Main.item) (q : list Main.item).
Implicit Types (acc : list (Main.item * Main.item)).

Lemma while_queue_nil fuel acc : Main.while_queue fuel [] acc = Some acc.
Proof. by destruct fuel. Qed.

Lemma for_child_spec it cs q acc :
  Main.for_child it cs q acc = (q ++ cs, acc ++ ((λ child, (it, child)) <$> cs)).
Proof.
  unfold Main.for_child. revert q acc.
  induction cs as [|ch cs IH]; intros q acc; simpl.
  - by rewrite !app_nil_r.
  - rewrite IH. simpl. by rewrite <- !app_assoc.
Qed.

(** The loop on a queue that starts with [q] gets through [q], putting the
    children of its nodes at the end of the queue and their edges at the
    end of the graph. *)
Lemma while_queue_app fuel q q2 acc :
  Main.while_queue (length q + fuel) (q ++ q2) acc
  = Main.while_queue fuel (q2 ++ (q ≫= Main.children_of)) (acc ++ (q ≫= edges_of)).
Proof.
  revert q2 acc. induction q as [|it q IH]; intros q2 acc.
  { simpl. by rewrite !app_nil_r. }
  rewrite !bind_cons.
  change (Main.while_queue (length (it :: q) + fuel) ((it :: q) ++ q2) acc)
    with (Main.while_queue (length q + fuel)
            (Main.for_child it (Main.children_of it) (q ++ q2) acc).1
            (Main.for_child it (Main.children_of it) (q ++ q2) acc).2).
  rewrite for_child_spec. cbn [fst snd].
  rewrite <- app_assoc, IH. unfold edges_of at 2.
  by rewrite <- !app_assoc.
Qed.

Lemma while_queue_levels root D fuel :
  Main.while_queue (nodes_upto root D + fuel) (level root 0) []
  = Main.while_queue fuel (level root D) (edges_upto root D).
Proof.
  revert fuel. induction D as [|D IH]; intros fuel; [done|].
  simpl nodes_upto. rewrite <- Nat.add_assoc, IH.
  pose proof (while_queue_app fuel (level root D) [] (edges_upto root D)) as H.
  rewrite app_nil_r in H. exact H.
Qed.

Lemma elem_of_children_of it p c :
  (p, c) ∈ Main.children_of it ↔
  ∃ k, p = it.1 ++ [k] ∧ GeoNode.children it.2 !! k = Some c.
Proof.
  unfold Main.children_of. rewrite list_elem_of_fmap. split.
  - intros ([k c'] & [= -> ->] & Hk%elem_of_map_to_list). by exists k.
  - intros (k & -> & Hk). exists (k, c). split; [done|]. by apply elem_of_map_to_list.
Qed.

Lemma elem_of_level root d p n :
  (p, n) ∈ level root d ↔ length p = d ∧ GeoNode.node_at p root = Some n.
Proof.
  revert p n. induction d as [|d IH]; intros p n; simpl.
  - rewrite list_elem_of_singleton. split.
    + by intros [= -> ->].
    + intros [Hp Hn]. destruct p; [|done]. simpl in Hn. by injection Hn as ->.
  - rewrite list_elem_of_bind. split.
    + intros ([p0 n0] & (k & -> & Hk)%elem_of_children_of & [Hlen Hn0]%IH).
      simpl in *. rewrite length_app, node_at_app, Hn0. simpl. rewrite Hk.
      split; [lia|done].
    + intros [Hlen Hn]. destruct p as [|k p0 _] using rev_ind; [done|].
      rewrite length_app in Hlen. simpl in Hlen.
      rewrite node_at_app in Hn.
      destruct (GeoNode.node_at p0 root) as [n0|] eqn:Hn0; [|done]. simpl in Hn.
      destruct (GeoNode.children n0 !! k) as [c|] eqn:Hk; [|done].
      injection Hn as ->. exists (p0, n0). split.
      * apply elem_of_children_of. by exists k.
      * apply IH. split; [lia|done].
Qed.

Lemma level_size root : level root (size root) = [].
Proof.
  destruct (level root (size root)) as [|[p n] l] eqn:Hl; [done|].
  assert ((p, n) ∈ level root (size root)) as [Hlen Hn]%elem_of_level
    by (rewrite Hl; left).
  apply node_at_depth in Hn. lia.
Qed.

Lemma elem_of_edges_level root d p n p' c :
  ((p, n), (p', c)) ∈ level root d ≫= edges_of ↔
  length p = d ∧ GeoNode.node_at p root = Some n
  ∧ ∃ k, p' = p ++ [k] ∧ GeoNode.children n !! k = Some c.
Proof.
  rewrite list_elem_of_bind. unfold edges_of. split.
  - intros (it & ([p1 c1] & [= <- <- <-] & Hch)%list_elem_of_fmap & Hit).
    apply elem_of_level in Hit as [Hlen Hn].
    by apply elem_of_children_of in Hch.
  - intros (Hlen & Hn & Hk). exists (p, n). split; [|by apply elem_of_level].
    apply list_elem_of_fmap. exists (p', c). split; [done|].
    by apply elem_of_children_of.
Qed.

Lemma elem_of_edges_upto root D p n p' c :
  ((p, n), (p', c)) ∈ edges_upto root D ↔
  length p < D ∧ GeoNode.node_at p root = Some n
  ∧ ∃ k, p' = p ++ [k] ∧ GeoNode.children n !! k = Some c.
Proof.
  induction D as [|D IH]; simpl.
  - rewrite elem_of_nil. split; [done|]. intros [? _]. lia.
  - rewrite elem_of_app, IH, elem_of_edges_level. split.
    + intros [(? & ? & ?)|(? & ? & ?)]; (split; [lia|done]).
    + intros (Hlen & Hn & Hk). destruct (decide (length p = D)); [right|left];
        (split; [lia|done]).
Qed.

Lemma NoDup_children_of it : NoDup (Main.children_of it).
Proof.
  unfold Main.children_of. apply NoDup_fmap_2_strong; [|apply NoDup_map_to_list].
  intros [k1 c1] [k2 c2] _ _ [= Hk%app_inv_head ->]. by injection Hk as ->.
Qed.

Lemma NoDup_level root d : NoDup (level root d).
Proof.
  induction d as [|d IH]; simpl; [apply NoDup_singleton|].
  apply NoDup_bind; [|intros; apply NoDup_children_of|done].
  intros [p1 n1] [p2 n2] [p c] [_ H1]%elem_of_level [_ H2]%elem_of_level
         (k1 & -> & _)%elem_of_children_of (k2 & Hp & _)%elem_of_children_of.
  simpl in Hp. apply app_inj_tail in Hp as [-> _]. congruence.
Qed.

Lemma NoDup_edges_level root d : NoDup (level root d ≫= edges_of).
Proof.
  apply NoDup_bind; [| |apply NoDup_level].
  - intros it1 it2 e _ _. unfold edges_of.
    intros (? & -> & _)%list_elem_of_fmap (? & [= ->] & _)%list_elem_of_fmap. done.
  - intros it _. unfold edges_of. apply NoDup_fmap_2_strong; [|apply NoDup_children_of].
    by intros ch1 ch2 _ _ [= ->].
Qed.

Lemma NoDup_edges_upto root D : NoDup (edges_upto root D).
Proof.
  induction D as [|D IH]; simpl; [constructor|].
  apply NoDup_app. split; [done|]. split; [|apply NoDup_edges_level].
  intros [[p n] [p' c]] [Hlt _]%elem_of_edges_upto [Heq _]%elem_of_edges_level. lia.
Qed.

Lemma sorted_edges_upto root D :
  StronglySorted (λ e1 e2, depth_of e1 ≤ depth_of e2) (edges_upto root D).
Proof.
  induction D as [|D IH]; simpl; [constructor|].
  apply StronglySorted_app_2; [|done|].
  - intros [[p1 n1] [p1' c1]] [[p2 n2] [p2' c2]]
           [Hlt _]%elem_of_edges_upto [Heq _]%elem_of_edges_level.
    unfold depth_of. simpl. lia.
  - assert (Forall (λ e, depth_of e = D) (level root D ≫= edges_of)) as Hall.
    { apply Forall_forall. intros [[p n] [p' c]] [Heq _]%elem_of_edges_level. done. }
    induction Hall as [|e l He Hl IHl]; constructor; [done|].
    apply (Forall_impl _ _ _ Hl). intros e' He'. lia.
Qed.

Lemma length_bind_children root d :
  length (level root d ≫= edges_of) = length (level root (S d)).
Proof.
  simpl. induction (level root d) as [|it l IH]; [done|].
  rewrite !bind_cons, !length_app, IH. unfold edges_of. by rewrite length_fmap.
Qed.

Lemma nodes_edges root D :
  nodes_upto root D + length (level root D) = S (length (edges_upto root D)).
Proof.
  induction D as [|D IH]; [done|].
  simpl nodes_upto. simpl edges_upto.
  rewrite length_app, length_bind_children. lia.
Qed.

Lemma traverse_enough g fuel :
  length (edges_upto (GeoGraph.root g) (size (GeoGraph.root g))) < fuel →
  Main.traverse fuel g
  = Some (edges_upto (GeoGraph.root g) (size (GeoGraph.root g))).
Proof.
  set (root := GeoGraph.root g). intros Hfuel. unfold Main.traverse. fold root.
  pose proof (nodes_edges root (size root)) as Hcount.
  rewrite level_size in Hcount. simpl in Hcount.
  replace fuel with (nodes_upto root (size root)
                     + (fuel - nodes_upto root (size root))) by lia.
  change [([], root)] with (level root 0).
  rewrite while_queue_levels. by rewrite level_size, while_queue_nil.
Qed.

Lemma elem_of_all_edges root p n p' c :
  ((p, n), (p', c)) ∈ edges_upto root (size root) ↔
  GeoNode.node_at p root = Some n
  ∧ ∃ k, p' = p ++ [k] ∧ GeoNode.children n !! k = Some c.
Proof.
  rewrite elem_of_edges_upto. split.
  - by intros (_ & ? & ?).
  - intros [Hn Hk]. split; [|done]. by apply node_at_depth in Hn.
Qed.

End traversal.

(** X9.  The traversal ends on every graph: with more fuel than there are
    edges it returns the list of the edges.  An edge is in the list exactly when it goes from a node of the
    tree to one of its children; no edge is in the list twice; and the
    edges come in breadth-first order: the depth of the node that an edge
    leaves never decreases along the list. *)
Theorem traverse_all_edges (g : GeoGraph.t) :
  ∃ edges,
    (∀ fuel, length edges < fuel → Main.traverse fuel g = Some edges)
    ∧ (∀ p n p' c,
         ((p, n), (p', c)) ∈ edges ↔
         GeoNode.node_at p (GeoGraph.root g) = Some n
         ∧ ∃ k, p' = p ++ [k] ∧ GeoNode.children n !! k = Some c)
    ∧ NoDup edges
    ∧ StronglySorted (λ e1 e2, length e1.1.1 ≤ length e2.1.1) edges.
Proof.
  exists (edges_upto (GeoGraph.root g) (size (GeoGraph.root g))).
  split; [|split; [|split]].
  - intros fuel. apply traverse_enough.
  - intros p n p' c. apply elem_of_all_edges.
  - apply NoDup_edges_upto.
  - apply sorted_edges_upto.
Qed.

(** ** The nodes of the tree *)

Section nodes.
Implicit Types (g : GeoGraph.t) (e : GeoEntry.t) (es : list GeoEntry.t).
Implicit Types (n c d : GeoNode.t) (q ls : list (option string)) (l : option string).

Lemma size_new l ty : size (GeoNode.new l ty) = 1.
Proof. simpl. by rewrite map_fold_empty. Qed.

Lemma size_set_child_present n l c d :
  GeoNode.children n !! l = Some c →
  size (GeoNode.set_children n (<[l := d]> (GeoNode.children n))) + size c
  = size n + size d.
Proof.
  intros Hc. destruct n as [lab ty m]. simpl in *.
  rewrite <- (insert_delete_eq m l d).
  rewrite map_fold_insert_L; [|intros; lia|apply lookup_delete_eq].
  rewrite (map_fold_delete_L _ _ l c m); [lia|intros; lia|done].
Qed.

Lemma size_set_child_absent n l d :
  GeoNode.children n !! l = None →
  size (GeoNode.set_children n (<[l := d]> (GeoNode.children n))) = size n + size d.
Proof.
  intros Hc. destruct n as [lab ty m]. simpl in *.
  rewrite map_fold_insert_L; [lia|intros; lia|done].
Qed.

(** A descent adds at most one node for each label, and removes none. *)
Lemma size_descend tys ls n :
  size n ≤ size (descend tys ls n) ≤ size n + length ls.
Proof.
  revert ls n. induction tys as [|ty tys IH]; intros ls n.
  { rewrite descend_stop by auto. lia. }
  destruct ls as [|l ls]. { rewrite descend_stop by auto. lia. }
  rewrite descend_step. unfold child_for.
  destruct (GeoNode.children n !! l) as [c|] eqn:Hc; simpl default.
  - pose proof (size_set_child_present n l c (descend tys ls c) Hc).
    pose proof (IH ls c). simpl length. lia.
  - rewrite size_set_child_absent by done.
    pose proof (IH ls (GeoNode.new l ty)) as H. rewrite size_new in H.
    simpl length. lia.
Qed.

(** A node of the tree after a sequence of calls was in the tree before
    them, or is on the path of a valid entry of the sequence. *)
Lemma node_at_add_children g es q n :
  GeoNode.node_at q (GeoGraph.root (add_children g es)) = Some n →
  is_Some (GeoNode.node_at q (GeoGraph.root g))
  ∨ ∃ e i, e ∈ es ∧ GeoEntry.is_valid e = true ∧ i < length (labels e)
           ∧ q = Some GeoGraph.USA :: take (S i) (labels e).
Proof.
  revert g. induction es as [|e es IH]; intros g Hn; [left; by eexists|].
  rewrite add_children_cons in Hn. destruct (IH _ Hn) as [[n1 Hn1]|(e' & i & He' & H)].
  2:{ right. exists e', i. split; [by right|done]. }
  destruct (GeoNode.node_at q (GeoGraph.root g)) as [n0|] eqn:Hn0; [left; by eexists|].
  right. destruct (GeoEntry.is_valid e) eqn:Hv.
  2:{ rewrite add_child_root, Hv in Hn1. congruence. }
  destruct (GeoNode.children (GeoGraph.root g) !! Some GeoGraph.USA) as [c|] eqn:Hc.
  2:{ rewrite add_child_root, Hv, update_at_missing in Hn1 by done. congruence. }
  destruct (new_node_add_child g e c q n1 Hv Hc Hn1 Hn0) as (i & -> & Hi & _).
  exists e, i. split; [by left|done].
Qed.

Lemma node_at_init q n :
  GeoNode.node_at q (GeoGraph.root Main.g) = Some n → q = [] ∨ q = [Some GeoGraph.USA].
Proof.
  intros Hn. destruct q as [|k q]; [by left|]. right.
  unfold Main.g in Hn. simpl in Hn.
  destruct (decide (k = Some "United States of America")) as [->|Hne].
  - rewrite lookup_insert_eq in Hn. destruct q as [|k' q]; [done|]. simpl in Hn.
    by rewrite lookup_empty in Hn.
  - rewrite lookup_insert_ne in Hn by done. by rewrite lookup_empty in Hn.
Qed.

Lemma add_children_no_country g es :
  GeoNode.children (GeoGraph.root g) !! Some GeoGraph.USA = None →
  add_children g es = g.
Proof.
  intros Hc. induction es as [|e es IH]; [done|].
  rewrite add_children_cons.
  assert ((GeoGraph.add_child g e).2 = g) as ->; [|done].
  rewrite add_child_graph. destruct (GeoEntry.is_valid e).
  - rewrite update_at_missing by done. by destruct g.
  - by destruct g.
Qed.

Lemma add_children_seeded g es :
  is_Some (GeoNode.children (GeoGraph.root (add_children g es)) !! Some GeoGraph.USA)
  ↔ is_Some (GeoNode.children (GeoGraph.root g) !! Some GeoGraph.USA).
Proof.
  revert g. induction es as [|e es IH]; intros g; [done|].
  by rewrite add_children_cons, IH, add_child_seeded.
Qed.

End nodes.

(** X10.  Nothing is in the tree that was not inserted.  After the calls of
    [add_child] for any sequence of entries, starting from the graph that
    the script sets up, a node of the tree is the root, the country node,
    or a node on the path of a valid entry of the sequence: its reference
    is the country followed by the first labels of that entry. *)
Theorem add_children_only_inserted (es : list GeoEntry.t)
    (q : list (option string)) (n : GeoNode.t) :
  GeoNode.node_at q (GeoGraph.root (add_children Main.g es)) = Some n →
  q = [] ∨ q = [Some GeoGraph.USA]
  ∨ ∃ e i, e ∈ es ∧ GeoEntry.is_valid e = true ∧ i < length (labels e)
           ∧ q = Some GeoGraph.USA :: take (S i) (labels e).
Proof.
  intros Hn. destruct (node_at_add_children Main.g es q n Hn) as [[n0 Hn0]|H].
  - destruct (node_at_init q n0 Hn0); auto.
  - auto.
Qed.

(** X11.  A call of [add_child] removes no node and adds at most six: the
    number of nodes of the tree after the call is at least the number
    before it and at most that number plus the number of labels of the
    entry, which is four, five or six; an entry that is not valid adds
    none. *)
Theorem add_child_size (g : GeoGraph.t) (e : GeoEntry.t) :
  size (GeoGraph.root g) ≤ size (GeoGraph.root (GeoGraph.add_child g e).2)
  ∧ size (GeoGraph.root (GeoGraph.add_child g e).2)
    ≤ size (GeoGraph.root g)
      + (if GeoEntry.is_valid e then length (labels e) else 0)
  ∧ 4 ≤ length (labels e) ≤ 6.
Proof.
  pose proof (labels_length e) as Hlen. rewrite add_child_root.
  destruct (GeoEntry.is_valid e); [|lia].
  destruct (GeoNode.children (GeoGraph.root g) !! Some GeoGraph.USA) as [c|] eqn:Hc.
  - rewrite (update_at_lookup _ _ _ c Hc).
    pose proof (size_set_child_present _ _ c (descend lower_types (labels e) c) Hc).
    pose proof (size_descend lower_types (labels e) c). lia.
  - rewrite update_at_missing by done. lia.
Qed.

(** X12.  [add_child] never creates the country node and never removes it.
    A graph without it stays as it is under any sequence of calls; a graph
    with it still has it after any sequence of calls. *)
Theorem add_children_country (g : GeoGraph.t) (es : list GeoEntry.t) :
  (is_Some (GeoNode.children (GeoGraph.root (add_children g es)) !! Some GeoGraph.USA)
   ↔ is_Some (GeoNode.children (GeoGraph.root g) !! Some GeoGraph.USA))
  ∧ (GeoNode.children (GeoGraph.root g) !! Some GeoGraph.USA = None →
     add_children g es = g).
Proof. split; [apply add_children_seeded|apply add_children_no_country]. Qed.

(** ** The script from its input to its edges *)


(** ** The further properties at sample data *)

Lemma add_children_same_elements_witness :
  (∀ e, e ∈ [Examples.entry_100; Examples.entry_200; Examples.entry_100]
        ↔ e ∈ [Examples.entry_200; Examples.entry_100])
  ∧ add_children Main.g [Examples.entry_100; Examples.entry_200; Examples.entry_100]
    = add_children Main.g [Examples.entry_200; Examples.entry_100].
Proof.
  assert (∀ e, e ∈ [Examples.entry_100; Examples.entry_200; Examples.entry_100]
               ↔ e ∈ [Examples.entry_200; Examples.entry_100]) as H1.
  { intros e. rewrite !elem_of_cons, !elem_of_nil. tauto. }
  split; [exact H1|].
  exact (add_children_same_elements Main.g _ _ H1).
Defined.

Lemma add_child_frame_witness :
  ¬ [Some "Mars"] `prefix_of` (Some GeoGraph.USA :: labels Examples.entry_100)
  ∧ GeoNode.node_at [Some "Mars"]
      (GeoGraph.root (GeoGraph.add_child Main.g Examples.entry_100).2)
    = GeoNode.node_at [Some "Mars"] (GeoGraph.root Main.g).
Proof.
  assert (¬ [Some "Mars"] `prefix_of` (Some GeoGraph.USA :: labels Examples.entry_100))
    as H1 by (intros [k Hk]; discriminate Hk).
  split; [exact H1|].
  exact (add_child_frame Main.g Examples.entry_100 [Some "Mars"] H1).
Defined.

Lemma add_children_findable_witness :
  Examples.entry_200 ∈ [Examples.entry_100; Examples.entry_200]
  ∧ GeoEntry.is_valid Examples.entry_200 = true
  ∧ labels Examples.entry_200 !! 4 = Some (Some "200")
  ∧ ∃ n, GeoNode.node_at (Some GeoGraph.USA :: take 5 (labels Examples.entry_200))
           (GeoGraph.root (add_children Main.g [Examples.entry_100; Examples.entry_200]))
         = Some n
         ∧ GeoNode.label n = Some "200"
         ∧ lower_types !! 4 = Some (GeoNode.node_type n).
Proof.
  assert (Examples.entry_200 ∈ [Examples.entry_100; Examples.entry_200]) as H1
    by (right; left).
  assert (GeoEntry.is_valid Examples.entry_200 = true) as H2 by reflexivity.
  assert (labels Examples.entry_200 !! 4 = Some (Some "200")) as H3 by reflexivity.
  split; [exact H1|]. split; [exact H2|]. split; [exact H3|].
  exact (add_children_findable _ _ 4 (Some "200") H1 H2 H3).
Defined.

Lemma add_children_only_inserted_witness :
  GeoNode.node_at
    [Some GeoGraph.USA; Some "CA"; Some "San Diego"; Some "92101"; Some "Main St";
     Some "100"]
    (GeoGraph.root (add_children Main.g [Examples.entry_100]))
  = Some (GeoNode.new (Some "100") NUMBER)
  ∧ ∃ e i, e ∈ [Examples.entry_100] ∧ GeoEntry.is_valid e = true
           ∧ i < length (labels e)
           ∧ [Some GeoGraph.USA; Some "CA"; Some "San Diego"; Some "92101";
              Some "Main St"; Some "100"]
             = Some GeoGraph.USA :: take (S i) (labels e).
Proof.
  assert (GeoNode.node_at
            [Some GeoGraph.USA; Some "CA"; Some "San Diego"; Some "92101";
             Some "Main St"; Some "100"]
            (GeoGraph.root (add_children Main.g [Examples.entry_100]))
          = Some (GeoNode.new (Some "100") NUMBER)) as H1 by (vm_compute; reflexivity).
  split; [exact H1|].
  destruct (add_children_only_inserted _ _ _ H1) as [H|[H|H]];
    [discriminate H|discriminate H|exact H].
Defined.

Lemma from_properties_idempotent_witness :
  (∀ name, name ∈ ["region"; "postcode"; "city"; "street"; "number"; "unit"] →
     props_100_extracted !! name = GeoEntry.get_entry Examples.props_100 name)
  ∧ GeoEntry.from_properties props_100_extracted
    = GeoEntry.from_properties Examples.props_100.
Proof.
  assert (∀ name, name ∈ ["region"; "postcode"; "city"; "street"; "number"; "unit"] →
            props_100_extracted !! name = GeoEntry.get_entry Examples.props_100 name)
    as H1.
  { intros name Hname. rewrite !elem_of_cons, elem_of_nil in Hname.
    destruct Hname as [->|[->|[->|[->|[->|[->|[]]]]]]]; vm_compute; reflexivity. }
  split; [exact H1|].
  exact (from_properties_idempotent Examples.props_100 props_100_extracted H1).
Defined.

Lemma read_lines_labels_witness :
  Main.read_lines [Some Examples.props_100] (Main.start Main.g)
  = Main.Finished (Main.mkstate (add_children Main.g [Examples.entry_100]) 0 1 99)
  ∧ GeoNode.node_at
      [Some GeoGraph.USA; Some "CA"; Some "San Diego"; Some "92101"; Some "Main St";
       Some "100"]
      (GeoGraph.root (add_children Main.g [Examples.entry_100]))
    = Some (GeoNode.new (Some "100") NUMBER)
  ∧ ∃ v, GeoNode.label (GeoNode.new (Some "100") NUMBER) = Some v
         ∧ Str.strip v = v ∧ v ≠ EmptyString
         ∧ (∀ c, Str.first_char v = Some c → Str.isspace c = false)
         ∧ (∀ c, Str.last_char v = Some c → Str.isspace c = false).
Proof.
  assert (Main.read_lines [Some Examples.props_100] (Main.start Main.g)
          = Main.Finished (Main.mkstate (add_children Main.g [Examples.entry_100]) 0 1 99))
    as H1 by (vm_compute; reflexivity).
  assert (GeoNode.node_at
            [Some GeoGraph.USA; Some "CA"; Some "San Diego"; Some "92101";
             Some "Main St"; Some "100"]
            (GeoGraph.root (add_children Main.g [Examples.entry_100]))
          = Some (GeoNode.new (Some "100") NUMBER)) as H2 by (vm_compute; reflexivity).
  split; [exact H1|]. split; [exact H2|].
  exact (read_lines_labels _ _ _ _ H1 H2).
Defined.

(** The traversal of the graph of one entry: the six edges, level after
    level. *)
Example traverse_one_entry :
  (λ edges : list (Main.item * Main.item),
     (λ e : Main.item * Main.item, (e.1.1, e.2.1)) <$> edges)
    <$> Main.traverse 7 (add_children Main.g [Examples.entry_100])
  = Some [([], [Some GeoGraph.USA]);
          ([Some GeoGraph.USA], [Some GeoGraph.USA; Some "CA"]);
          ([Some GeoGraph.USA; Some "CA"],
           [Some GeoGraph.USA; Some "CA"; Some "San Diego"]);
          ([Some GeoGraph.USA; Some "CA"; Some "San Diego"],
           [Some GeoGraph.USA; Some "CA"; Some "San Diego"; Some "92101"]);
          ([Some GeoGraph.USA; Some "CA"; Some "San Diego"; Some "92101"],
           [Some GeoGraph.USA; Some "CA"; Some "San Diego"; Some "92101";
            Some "Main St"]);
          ([Some GeoGraph.USA; Some "CA"; Some "San Diego"; Some "92101";
            Some "Main St"],
           [Some GeoGraph.USA; Some "CA"; Some "San Diego"; Some "92101";
            Some "Main St"; Some "100"])]
  ∧ Main.traverse 6 (add_children Main.g [Examples.entry_100]) = None.
Proof. split; vm_compute; reflexivity. Qed.
